(** * Quantum-walk exercise solutions (01_solutions.ipynb)

    A verification development for the three solved exercises of the
    notebook: the numpy construction of the decrementer matrix, the CUDA-Q
    kernels built on it, and the order in which the notebook cells bind and
    read their names. *)

From Stdlib Require Import ZArith QArith Qcanon Lia Ring Ring_theory Ascii.
From stdpp Require Import base option list gmap strings.

Set Warnings "-register-all".

(** ** numpy fragment: [np.zeros], indexed assignment, [decrementer] *)

(** A two-dimensional array is a list of rows.  The entries the notebook
    writes are the floats 0.0 and 1.0, which are exact; they are kept as
    integers. *)
Abbreviation matrix := (list (list Z)).

(** [np.zeros((rows, cols))].  The limits numpy puts on the size of an
    array (it raises [ValueError] or [MemoryError] on shapes too large)
    are not modelled: an array of any size exists. *)
Definition np_zeros (rows cols : nat) : matrix :=
  replicate rows (replicate cols 0%Z).

(** [m[i, j] = v] for non-negative indices: numpy raises [IndexError] when
    an index is out of bounds, which is [None] here. *)
Definition setitem (m : matrix) (i j : nat) (v : Z) : option matrix :=
  match m !! i with
  | Some row =>
      if decide (j < length row) then Some (<[i := <[j := v]> row]> m)
      else None
  | None => None
  end.

(** [for i in l: m = body(i, m)], stopping at the first exception. *)
Fixpoint for_range (l : list nat) (body : nat → matrix → option matrix)
    (m : matrix) : option matrix :=
  match l with
  | [] => Some m
  | i :: l' =>
      match body i m with
      | Some m' => for_range l' body m'
      | None => None
      end
  end.

(** [decrementer] of Exercise 2.  [2**num_qubits] is an int only when
    [num_qubits] is non-negative; with a negative exponent Python yields a
    float and [np.zeros] raises, hence [None]. *)
Definition decrementer (num_qubits : Z) : option matrix :=
  if decide (num_qubits < 0)%Z then None
  else
    let size := 2 ^ Z.to_nat num_qubits in
    let dec_matrix := np_zeros size size in
    for_range (seq 0 size)
      (λ i dec_matrix, setitem dec_matrix i ((i + 1) mod size) 1%Z)
      dec_matrix.

(** ** Linear algebra on lists, over any ring of scalars *)

Section LinAlg.
Context {A : Type}.
Variables (zero one : A) (add mul : A → A → A).

Definition dot (u v : list A) : A := foldr add zero (zip_with mul u v).

(** [M @ v] for a column vector [v]. *)
Definition matvec (M : list (list A)) (v : list A) : list A :=
  fmap (λ row, dot row v) M.

(** The standard basis vector [e_i] of dimension [size]. *)
Definition basis (size i : nat) : list A :=
  <[i := one]> (replicate size zero).

Definition column (M : list (list A)) (j : nat) : list A :=
  fmap (λ row, default zero (row !! j)) M.

(** [M.T], the number of columns read off the first row. *)
Definition transpose (M : list (list A)) : list (list A) :=
  fmap (column M) (seq 0 (length (default [] (head M)))).

(** [M @ N]. *)
Definition matmul (M N : list (list A)) : list (list A) :=
  fmap (λ row, fmap (dot row) (transpose N)) M.

Definition identity (size : nat) : list (list A) :=
  fmap (basis size) (seq 0 size).

(** The 0/1 matrix whose row [i] has its single one in column [p i]. *)
Definition perm_matrix (size : nat) (p : nat → nat) : list (list A) :=
  fmap (λ i, basis size (p i)) (seq 0 size).

(** A square matrix of the given size. *)
Definition square (size : nat) (M : list (list A)) : Prop :=
  length M = size ∧ Forall (λ row, length row = size) M.
End LinAlg.

(** Number of occurrences of [x] in a list. *)
Definition count `{EqDecision A} (x : A) (l : list A) : nat :=
  length (filter (λ y, y = x) l).

(** The cyclic shifts on indices [0 .. size-1]. *)
Definition succ_mod (size i : nat) : nat := (i + 1) mod size.
Definition pred_mod (size i : nat) : nat := (i + (size - 1)) mod size.

(** The matrix [decrementer] holds after the first [k] iterations of its
    loop: the rows below [k] are filled in. *)
Definition rows_done (size k : nat) : matrix :=
  (λ i, if decide (i < k) then basis 0%Z 1%Z size (succ_mod size i)
        else replicate size 0%Z) <$> seq 0 size.

(** ** CUDA-Q kernels as circuit builders *)

(** A kernel body is a sequence of operations on qubit handles.  Qubits are
    numbered in allocation order. *)
Inductive instr :=
  | Op (name : string) (ctrls targets : list nat)
      (** a gate or a registered operation; [name.ctrl(c, ts)] has [ctrls = [c]] *)
  | Call (name : string) (args : list nat)
      (** a call of a kernel that this notebook does not define *)
  | Mz (qubits : list nat).

Record builder := Builder { nqubits : nat; code : list instr }.

(** A kernel under construction: it may fail (an index out of range), and
    otherwise returns a value and the extended circuit. *)
Definition Kernel (T : Type) : Type := builder → option (T * builder).

Global Instance kernel_ret : MRet Kernel := λ T v b, Some (v, b).
Global Instance kernel_bind : MBind Kernel := λ T U f m b,
  match m b with
  | Some (v, b') => f v b'
  | None => None
  end.

Definition emit (i : instr) : Kernel unit :=
  λ b, Some (tt, Builder (nqubits b) (code b ++ [i])).

Definition kernel_fail {T} : Kernel T := λ _, None.

(** [cudaq.qvector(n)] and [cudaq.qubit()]. *)
Definition qvector (n : nat) : Kernel (list nat) :=
  λ b, Some (seq (nqubits b) n, Builder (nqubits b + n) (code b)).
Definition qubit : Kernel nat :=
  λ b, Some (nqubits b, Builder (nqubits b + 1) (code b)).

(** Qubit arguments are written as in the source, [qubits !! 2] for
    [qubits[2]]; an index out of range makes the kernel fail. *)
Definition gate (name : string) (ctrls targets : list (option nat))
    : Kernel unit :=
  match mapM id ctrls, mapM id targets with
  | Some cs, Some ts => emit (Op name cs ts)
  | _, _ => kernel_fail
  end.

Definition x (q : option nat) : Kernel unit := gate "x" [] [q].
Definition h (q : option nat) : Kernel unit := gate "h" [] [q].
Definition mz (qubits : list nat) : Kernel unit := emit (Mz qubits).
Definition call (name : string) (args : list nat) : Kernel unit :=
  emit (Call name args).

(** The circuit of a complete kernel. *)
Definition build (k : Kernel unit) : option builder :=
  match k (Builder 0 []) with
  | Some (_, b) => Some b
  | None => None
  end.

(** *** Exercise 1 *)

Definition initial_position (qubits : list nat) : Kernel unit :=
  x (qubits !! 2) ;;
  h (qubits !! 3).

(** *** Exercise 2 *)

Definition DEC (q0 q1 q2 q3 : option nat) : Kernel unit :=
  gate "DEC" [] [q0; q1; q2; q3].

Definition check_decrementer_kernel : Kernel unit :=
  qubits ← qvector 4;
  x (qubits !! 3) ;;
  DEC (qubits !! 0) (qubits !! 1) (qubits !! 2) (qubits !! 3).

(** *** Exercise 3 *)

Definition num_qubits : Z := 4.

(** [no_INC_at_right_endpoint], [INC], [reset_coin_and_endpoint] and
    [no_DEC_at_left_endpoint] are used by the step but defined nowhere in
    the notebook: they stay named operations of the circuit. *)
Definition DTQW_one_step (num_qubits : nat) : Kernel unit :=
  walker_qubits ← qvector num_qubits;
  coin_qubit ← qubit;
  endpoint_qubit ← qubit;
  initial_position walker_qubits ;;
  h (Some coin_qubit) ;;
  h (Some coin_qubit) ;;
  call "no_INC_at_right_endpoint"
    (walker_qubits ++ [coin_qubit; endpoint_qubit]) ;;
  gate "INC" [Some coin_qubit]
    [walker_qubits !! 0; walker_qubits !! 1;
     walker_qubits !! 2; walker_qubits !! 3] ;;
  call "reset_coin_and_endpoint" [coin_qubit; endpoint_qubit] ;;
  call "no_DEC_at_left_endpoint"
    (walker_qubits ++ [coin_qubit; endpoint_qubit]) ;;
  x (Some coin_qubit) ;;
  gate "DEC" [Some coin_qubit]
    [walker_qubits !! 0; walker_qubits !! 1;
     walker_qubits !! 2; walker_qubits !! 3] ;;
  x (Some coin_qubit) ;;
  call "reset_coin_and_endpoint" [coin_qubit; endpoint_qubit] ;;
  mz walker_qubits.

(** ** State-vector simulation *)

(** A register of [n] qubits is a list of [2^n] amplitudes indexed by basis
    state.  The bit string of a basis state lists qubit 0 first, so qubit 0
    is the most significant bit of the index: [|0010>] is index 2. *)
Definition qbit (n q i : nat) : bool := Nat.testbit i (n - 1 - q).

Definition setbit (n q : nat) (b : bool) (i : nat) : nat :=
  if Bool.eqb (qbit n q i) b then i
  else if b then i + 2 ^ (n - 1 - q) else i - 2 ^ (n - 1 - q).

(** The number spelled by the bits of [i] at the qubits [ts], first qubit
    most significant. *)
Definition sel (n : nat) (ts : list nat) (i : nat) : nat :=
  foldl (λ acc t, 2 * acc + (if qbit n t i then 1 else 0)) 0 ts.

(** [i] with the bits at the qubits [ts] replaced by those of [r]. *)
Fixpoint put (n : nat) (ts : list nat) (r i : nat) : nat :=
  match ts with
  | [] => i
  | t :: ts' => put n ts' r (setbit n t (Nat.testbit r (length ts')) i)
  end.

Section Simulator.
Context {A : Type}.
Variables (zero one : A) (add mul : A → A → A) (opp conj : A → A).
(** The amplitude [1/sqrt 2]. *)
Variable s : A.

Fixpoint of_pos (p : positive) : A :=
  match p with
  | xH => one
  | xO p' => mul (add one one) (of_pos p')
  | xI p' => add one (mul (add one one) (of_pos p'))
  end.

(** The amplitude of an integer-valued matrix entry. *)
Definition of_Z (z : Z) : A :=
  match z with
  | Z0 => zero
  | Zpos p => of_pos p
  | Zneg p => opp (of_pos p)
  end.

Definition of_matrix (M : list (list Z)) : list (list A) :=
  (λ row : list Z, of_Z <$> row) <$> M.

Definition X_matrix : list (list A) := [[zero; one]; [one; zero]].
Definition H_matrix : list (list A) := [[s; s]; [s; opp s]].

(** The operations a kernel can name: the built-in gates and the
    matrices passed to [cudaq.register_operation]. *)
Definition builtin_ops : gmap string (list (list A)) :=
  <["x" := X_matrix]> (<["h" := H_matrix]> ∅).

Definition register_operation (name : string) (m : option matrix)
    (ops : gmap string (list (list A))) : option (gmap string (list (list A))) :=
  match m with
  | Some M => Some (<[name := of_matrix M]> ops)
  | None => None
  end.

(** [cudaq.register_operation("DEC", decrementer(num_qubits))]. *)
Definition notebook_ops : option (gmap string (list (list A))) :=
  register_operation "DEC" (decrementer num_qubits) builtin_ops.

(** What [notebook_ops] comes to: the gate DEC is the permutation matrix
    of [i ↦ (i + 1) mod 16]. *)
Definition DEC_matrix : list (list A) := perm_matrix zero one 16 (succ_mod 16).
Definition ops16 : gmap string (list (list A)) :=
  <["DEC" := DEC_matrix]> builtin_ops.

(** The matrix [U] applied to the target qubits [ts] of an [n]-qubit
    register, on the basis states whose control qubits [cs] are all 1. *)
Definition apply_gate (n : nat) (U : list (list A)) (cs ts : list nat)
    (st : list A) : list A :=
  fmap (λ i,
    if forallb (λ c, qbit n c i) cs then
      dot zero add mul (default [] (U !! sel n ts i))
        (fmap (λ r, default zero (st !! put n ts r i)) (seq 0 (2 ^ length ts)))
    else default zero (st !! i))
    (seq 0 (2 ^ n)).

(** The matrix has one row and column per basis state of the targets,
    and every qubit named is in the register, each once. *)
Definition gate_fits (n : nat) (U : list (list A)) (cs ts : list nat) : bool :=
  bool_decide (length U = 2 ^ length ts) &&
  forallb (λ row : list A, bool_decide (length row = 2 ^ length ts)) U &&
  forallb (λ q, bool_decide (q < n)) (cs ++ ts) &&
  bool_decide (NoDup (cs ++ ts)).

(** What the operations and kernels that the notebook names but does not
    define do to the register. *)
Variable absent : string → list nat → list nat → list A → list A.

Definition run_instr (ops : gmap string (list (list A))) (n : nat)
    (i : instr) (st : list A) : option (list A) :=
  match i with
  | Op name cs ts =>
      match ops !! name with
      | Some U =>
          if gate_fits n U cs ts then Some (apply_gate n U cs ts st) else None
      | None => Some (absent name cs ts st)
      end
  | Call name args => Some (absent name [] args st)
  | Mz _ => Some st
  end.

Fixpoint run_circuit (ops : gmap string (list (list A))) (n : nat)
    (c : list instr) (st : list A) : option (list A) :=
  match c with
  | [] => Some st
  | i :: c' =>
      match run_instr ops n i st with
      | Some st' => run_circuit ops n c' st'
      | None => None
      end
  end.

(** The state a kernel leaves its freshly allocated qubits in. *)
Definition simulate (k : Kernel unit) : option (list A) :=
  match build k, notebook_ops with
  | Some b, Some ops =>
      run_circuit ops (nqubits b) (code b) (basis zero one (2 ^ nqubits b) 0)
  | _, _ => None
  end.

(** The sum of the squared magnitudes of the amplitudes. *)
Definition norm2 (st : list A) : A :=
  foldr add zero (fmap (λ a, mul a (conj a)) st).

(** A measurement can return the basis state [i] only if its amplitude
    is not zero. *)
Definition possible (st : list A) (i : nat) : Prop :=
  ∃ a, st !! i = Some a ∧ a ≠ zero.

(** The register whose amplitude at [i] is the old one at [f i]. *)
Definition reindex (n : nat) (f : nat → nat) (st : list A) : list A :=
  fmap (λ i, default zero (st !! f i)) (seq 0 (2 ^ n)).

(** [U] controlled on qubit [c] being 0, in words: [U] acts on the
    targets [ts] where qubit [c] is 0, and nothing changes where it
    is 1. *)
Definition controlled_on_zero (n : nat) (U : list (list A)) (c : nat)
    (ts : list nat) (st : list A) : list A :=
  fmap (λ i,
    if qbit n c i then default zero (st !! i)
    else
      dot zero add mul (default [] (U !! sel n ts i))
        (fmap (λ r, default zero (st !! put n ts r i)) (seq 0 (2 ^ length ts))))
    (seq 0 (2 ^ n)).

(** One instruction of the six-qubit circuit runs and keeps the length
    and the total probability. *)
Definition step_ok (i : instr) : Prop :=
  ∀ st, length st = 64 →
    ∃ st', run_instr ops16 6 i st = Some st' ∧
           length st' = 64 ∧ norm2 st' = norm2 st.
End Simulator.

(** What is assumed of the amplitudes: they form a commutative ring with a
    conjugation, and [s], the real number [1/sqrt 2], satisfies
    [2 * s * s = 1].  The complex numbers are the intended instance. *)
Record amp_laws {A : Type} (zero one : A) (add mul sub : A → A → A)
    (opp conj : A → A) (s : A) : Prop := AmpLaws {
  amp_ring : ring_theory zero one add mul sub opp eq;
  conj_zero : conj zero = zero;
  conj_one : conj one = one;
  conj_add : ∀ a b, conj (add a b) = add (conj a) (conj b);
  conj_mul : ∀ a b, conj (mul a b) = mul (conj a) (conj b);
  conj_opp : ∀ a, conj (opp a) = opp (conj a);
  conj_s : conj s = s;
  half : mul (add one one) (mul s s) = one
}.

(** ** An executable instance of the amplitudes: the field Q(sqrt 2) *)

(** [rat + irr * sqrt 2] with rational [rat] and [irr]. *)
Record Qsqrt2 := Qs2 { rat : Qc; irr : Qc }.

Module Qsqrt2.
Local Open Scope Qc_scope.
Definition zero : Qsqrt2 := Qs2 0 0.
Definition one : Qsqrt2 := Qs2 1 0.
Definition add (a b : Qsqrt2) : Qsqrt2 := Qs2 (rat a + rat b) (irr a + irr b).
Definition mul (a b : Qsqrt2) : Qsqrt2 :=
  Qs2 (rat a * rat b + (1 + 1) * (irr a * irr b)) (rat a * irr b + irr a * rat b).
Definition opp (a : Qsqrt2) : Qsqrt2 := Qs2 (- rat a) (- irr a).
Definition sub (a b : Qsqrt2) : Qsqrt2 := add a (opp b).
(** Every element is real. *)
Definition conj (a : Qsqrt2) : Qsqrt2 := a.
(** [1/sqrt 2 = sqrt 2 / 2]. *)
Definition s : Qsqrt2 := Qs2 0 (Q2Qc (1 # 2)).
(** Kernels that do nothing, in place of those the notebook lacks. *)
Definition skip (name : string) (cs ts : list nat) (st : list Qsqrt2)
    : list Qsqrt2 := st.
End Qsqrt2.

(** ** The walk step on the six qubits of [DTQW_one_step] *)

Definition walker : list nat := [0; 1; 2; 3].
Definition coin : nat := 4.
Definition endpoint : nat := 5.

(** The basis state with the walker's position decremented modulo 16 when
    the coin bit is 0, and unchanged when it is 1. *)
Definition dec_index (i : nat) : nat :=
  if qbit 6 coin i then i
  else put 6 walker (pred_mod 16 (sel 6 walker i)) i.

(** The same with the position incremented. *)
Definition inc_index (i : nat) : nat :=
  if qbit 6 coin i then i
  else put 6 walker (succ_mod 16 (sel 6 walker i)) i.

(** ** Sampling *)

(** The string a shot records for the basis state [i]: one character per
    measured qubit. *)
Definition bitstring (n : nat) (qs : list nat) (i : nat) : string :=
  foldr (λ q acc, String (if qbit n q i then "1" else "0")%char acc) EmptyString qs.

(** The qubits a kernel measures: those of its [mz] calls, or every qubit
    when it has none. *)
Definition measured (b : builder) : list nat :=
  match flat_map (λ i, match i with Mz qs => qs | _ => [] end) (code b) with
  | [] => seq 0 (nqubits b)
  | qs => qs
  end.

(** A string of [n] characters, each 0 or 1. *)
Definition is_bitstring (n : nat) (key : string) : Prop :=
  String.length key = n ∧
  Forall (λ c, c = "0"%char ∨ c = "1"%char) (String.list_ascii_of_string key).

Definition record_shot (hist : gmap string nat) (key : string) : gmap string nat :=
  <[key := S (default 0 (hist !! key))]> hist.

(** [cudaq.sample(k, shots_count=length shots)], where [shots] lists the
    basis state each shot collapsed to. *)
Definition sample (k : Kernel unit) (shots : list nat) : option (gmap string nat) :=
  match build k with
  | Some b =>
      Some (foldl record_shot ∅ (fmap (bitstring (nqubits b) (measured b)) shots))
  | None => None
  end.

Definition total_count (hist : gmap string nat) : nat :=
  map_fold (λ _ c acc, c + acc) 0 hist.

(** [SampleResult.most_probable()]. *)
Definition most_probable (hist : gmap string nat) : option string :=
  fst <$> map_fold (λ key c best,
            match best with
            | Some (_, c') => if decide (c' < c) then Some (key, c) else best
            | None => Some (key, c)
            end) None hist.

(** ** The notebook: cells, and the names they bind and read *)

Module Notebook.

(** The fragment of Python syntax the cells are written in. *)
Inductive expr :=
  | Name (id : string)
  | Attribute (value : expr) (attr : string)
  | Call (func : expr) (args : list expr) (keywords : list (string * expr))
  | Subscript (value : expr) (index : list expr)
  | BinOp (left : expr) (op : string) (right : expr)
  | Tuple (elts : list expr)
  | Num (n : Z)
  | Str (s : string).

Inductive stmt :=
  | FunctionDef (name : string) (decorators : list expr)
      (params : list (string * option expr)) (body : list stmt)
  | Assign (target : expr) (value : expr)
  | Expr (value : expr)
  | For (target : string) (iter : expr) (body : list stmt)
  | Return (value : expr).

(** Only what decides which names are bound is kept of a value: whether
    it is a function of the notebook (a kernel once [cudaq.kernel] has
    decorated it), an object of the framework named by its dotted path,
    a literal, or anything else. *)
Inductive value :=
  | VFun (kernel : bool) (params : list string) (body : list stmt)
  | VExt (path : string)
  | VNum (n : Z)
  | VStr (s : string)
  | VObj.

Inductive result (T : Type) :=
  | Ok (v : T)
  | NameError (id : string)
  | OutOfFuel.
Arguments Ok {T} v.
Arguments NameError {T} id.
Arguments OutOfFuel {T}.

Global Instance result_bind : MBind result := λ T U f m,
  match m with
  | Ok v => f v
  | NameError id => NameError id
  | OutOfFuel => OutOfFuel
  end.

(** Global names (those of the registered operations among them); the
    local names of a function call in progress are a second map. *)
Definition lookup_name (g : gmap string value) (l : option (gmap string value))
    (id : string) : option value :=
  match l with
  | Some locals =>
      match locals !! id with
      | Some v => Some v
      | None => g !! id
      end
  | None => g !! id
  end.

Definition bind_name (g : gmap string value) (l : option (gmap string value))
    (id : string) (v : value) : gmap string value * option (gmap string value) :=
  match l with
  | Some locals => (g, Some (<[id := v]> locals))
  | None => (<[id := v]> g, None)
  end.

(** [v.attr].  An attribute of a framework object is a framework
    object; attribute errors are not modelled, so an attribute of
    anything else is an opaque object. *)
Definition getattr (v : value) (attr : string) : value :=
  match v with
  | VExt path => VExt (path +:+ "." +:+ attr)
  | _ => VObj
  end.

Section Lists.
Context {X Y : Type}.
Variable eval1 : gmap string value → X → result (Y * gmap string value).

(** Left to right, threading the globals. *)
Fixpoint eval_list (g : gmap string value) (es : list X)
    : result (list Y * gmap string value) :=
  match es with
  | [] => Ok ([], g)
  | e :: es' =>
      '(v, g1) ← eval1 g e;
      '(vs, g2) ← eval_list g1 es';
      Ok (v :: vs, g2)
  end.
End Lists.

Section Blocks.
Variable exec1 : gmap string value → option (gmap string value) → stmt →
  result (gmap string value * option (gmap string value) * option value).

(** The statements of a block in order, up to the first [return]. *)
Fixpoint exec_block (g : gmap string value) (l : option (gmap string value))
    (ss : list stmt)
    : result (gmap string value * option (gmap string value) * option value) :=
  match ss with
  | [] => Ok (g, l, None)
  | st :: ss' =>
      '(g1, l1, r) ← exec1 g l st;
      match r with
      | Some _ => Ok (g1, l1, r)
      | None => exec_block g1 l1 ss'
      end
  end.
End Blocks.

(** Evaluation of expressions, calls and statements, one level deep:
    [eval], [call] and [exec] stand for the evaluation of what is nested
    inside.  A name is looked up among the locals, then the globals; an
    unbound one raises.  [cudaq.kernel] turns a function into a kernel,
    [cudaq.register_operation(name, m)] binds [name], and
    [cudaq.sample(k, args)] runs the body of kernel [k], as does a call
    of [k] from another kernel.  A loop body is entered once, which reads
    every name it can read. *)
Section Step.
Variable eval : gmap string value → option (gmap string value) → expr →
  result (value * gmap string value).
Variable call : gmap string value → value → list value →
  result (value * gmap string value).
Variable exec : gmap string value → option (gmap string value) → stmt →
  result (gmap string value * option (gmap string value) * option value).

Definition eval_step (g : gmap string value)
    (l : option (gmap string value)) (e : expr)
    : result (value * gmap string value) :=
  match e with
  | Name id =>
      match lookup_name g l id with
      | Some v => Ok (v, g)
      | None => NameError id
      end
  | Attribute e1 attr =>
      '(v, g1) ← eval g l e1;
      Ok (getattr v attr, g1)
  | Call f args keywords =>
      '(fv, g1) ← eval g l f;
      '(avs, g2) ← eval_list (λ g0 e0, eval g0 l e0) g1 args;
      '(_, g3) ← eval_list (λ g0 e0, eval g0 l e0) g2 keywords.*2;
      call g3 fv avs
  | Subscript e1 index =>
      '(_, g1) ← eval g l e1;
      '(_, g2) ← eval_list (λ g0 e0, eval g0 l e0) g1 index;
      Ok (VObj, g2)
  | BinOp e1 _ e2 =>
      '(_, g1) ← eval g l e1;
      '(_, g2) ← eval g1 l e2;
      Ok (VObj, g2)
  | Tuple es =>
      '(_, g1) ← eval_list (λ g0 e0, eval g0 l e0) g es;
      Ok (VObj, g1)
  | Num n => Ok (VNum n, g)
  | Str s => Ok (VStr s, g)
  end.

Definition call_step (g : gmap string value) (fv : value)
    (avs : list value) : result (value * gmap string value) :=
  match fv with
  | VFun _ ps body =>
      '(g1, _, r) ← exec_block exec g
                      (Some (list_to_map (zip ps avs))) body;
      Ok (default VObj r, g1)
  | VExt path =>
      if decide (path = "cudaq.kernel") then
        match avs with
        | [VFun _ ps body] => Ok (VFun true ps body, g)
        | _ => Ok (VObj, g)
        end
      else if decide (path = "cudaq.register_operation") then
        match avs with
        | VStr name :: _ => Ok (VObj, <[name := VExt name]> g)
        | _ => Ok (VObj, g)
        end
      else if decide (path = "cudaq.sample") then
        match avs with
        | VFun true ps body :: rest =>
            '(g1, _, _) ← exec_block exec g
                            (Some (list_to_map (zip ps rest))) body;
            Ok (VObj, g1)
        | _ => Ok (VObj, g)
        end
      else Ok (VObj, g)
  | _ => Ok (VObj, g)
  end.

(** The decorators of a definition are applied last first. *)
Definition decorate (ds : list value)
    (init : result (value * gmap string value))
    : result (value * gmap string value) :=
  foldr (λ d acc, '(v, g0) ← acc; call g0 d [v]) init ds.

Definition exec_step (g : gmap string value)
    (l : option (gmap string value)) (st : stmt)
    : result (gmap string value * option (gmap string value) * option value) :=
  match st with
  | FunctionDef name decorators params body =>
      '(ds, g1) ← eval_list (λ g0 e0, eval g0 l e0) g decorators;
      '(_, g2) ← eval_list (λ g0 e0, eval g0 l e0) g1 (omap snd params);
      '(fv, g3) ← decorate ds (Ok (VFun false params.*1 body, g2));
      let '(g4, l4) := bind_name g3 l name fv in
      Ok (g4, l4, None)
  | Assign (Name id) e =>
      '(v, g1) ← eval g l e;
      let '(g2, l2) := bind_name g1 l id v in
      Ok (g2, l2, None)
  | Assign target e =>
      '(_, g1) ← eval g l e;
      '(_, g2) ← eval g1 l target;
      Ok (g2, l, None)
  | Expr e =>
      '(_, g1) ← eval g l e;
      Ok (g1, l, None)
  | For target iter body =>
      '(_, g1) ← eval g l iter;
      let '(g2, l2) := bind_name g1 l target VObj in
      exec_block exec g2 l2 body
  | Return e =>
      '(v, g1) ← eval g l e;
      Ok (g1, l, Some v)
  end.
End Step.

(** Function bodies are values, so evaluation is not structural: it is
    bounded by the depth [fuel] of nested evaluations. *)
Fixpoint eval (fuel : nat) (g : gmap string value)
    (l : option (gmap string value)) (e : expr) {struct fuel}
    : result (value * gmap string value) :=
  match fuel with
  | 0 => OutOfFuel
  | S fuel' => eval_step (eval fuel') (call fuel') g l e
  end
with call (fuel : nat) (g : gmap string value) (fv : value)
    (avs : list value) {struct fuel} : result (value * gmap string value) :=
  match fuel with
  | 0 => OutOfFuel
  | S fuel' => call_step (exec fuel') g fv avs
  end
with exec (fuel : nat) (g : gmap string value)
    (l : option (gmap string value)) (st : stmt) {struct fuel}
    : result (gmap string value * option (gmap string value) * option value) :=
  match fuel with
  | 0 => OutOfFuel
  | S fuel' => exec_step (eval fuel') (call fuel') (exec fuel') g l st
  end.

(** A result other than having run out of fuel. *)
Definition definite {T} (r : result T) : Prop := r ≠ OutOfFuel.

(** *** The cells, transcribed *)

Definition qubit_at (qs : string) (i : Z) : expr := Subscript (Name qs) [Num i].
Definition walker_at (i : Z) : expr := qubit_at "walker_qubits" i.
Definition cudaq_ (attr : string) : expr := Attribute (Name "cudaq") attr.

(** The licence header: comments only. *)
Definition licence_cell : list stmt := [].

Definition exercise1_cell : list stmt :=
  [ FunctionDef "initial_position" [cudaq_ "kernel"]
      [("qubits", Some (cudaq_ "qvector"))]
      [ Expr (Str "Apply gates to the qubits to prepare the GHZ state");
        Expr (Call (Name "x") [qubit_at "qubits" 2] []);
        Expr (Call (Name "h") [qubit_at "qubits" 3] []) ] ].

Definition exercise2_cell : list stmt :=
  [ FunctionDef "decrementer" [] [("num_qubits", None)]
      [ Assign (Name "size") (BinOp (Num 2) "**" (Name "num_qubits"));
        Assign (Name "dec_matrix")
          (Call (Attribute (Name "np") "zeros")
             [Tuple [Name "size"; Name "size"]] []);
        For "i" (Call (Name "range") [Name "size"] [])
          [ Assign
              (Subscript (Name "dec_matrix")
                 [Name "i";
                  BinOp (BinOp (Name "i") "+" (Num 1)) "%" (Name "size")])
              (Num 1) ];
        Return (Name "dec_matrix") ];
    Expr (Call (cudaq_ "register_operation")
            [Str "DEC"; Call (Name "decrementer") [Name "num_qubits"] []] []);
    FunctionDef "check_decrementer_kernel" [cudaq_ "kernel"] []
      [ Assign (Name "qubits") (Call (cudaq_ "qvector") [Num 4] []);
        Expr (Call (Name "x") [qubit_at "qubits" 3] []);
        Expr (Call (Name "DEC")
                [qubit_at "qubits" 0; qubit_at "qubits" 1;
                 qubit_at "qubits" 2; qubit_at "qubits" 3] []) ];
    Assign (Name "result")
      (Call (Attribute
               (Call (cudaq_ "sample") [Name "check_decrementer_kernel"]
                  [("shots_count", Num 1000)])
               "most_probable") [] []);
    Expr (Call (Name "print")
            [Call (Attribute (Str "Decrementer kernel |0001> -> |{}>") "format")
               [Name "result"] []] []) ].

Definition exercise3_cell : list stmt :=
  [ Assign (Name "num_qubits") (Num 4);
    FunctionDef "DTQW_one_step" [cudaq_ "kernel"]
      [("num_qubits", Some (Name "int"))]
      [ Assign (Name "walker_qubits")
          (Call (cudaq_ "qvector") [Name "num_qubits"] []);
        Assign (Name "coin_qubit") (Call (cudaq_ "qubit") [] []);
        Assign (Name "endpoint_qubit") (Call (cudaq_ "qubit") [] []);
        Expr (Call (Name "initial_position") [Name "walker_qubits"] []);
        Expr (Call (Name "h") [Name "coin_qubit"] []);
        Expr (Call (Name "h") [Name "coin_qubit"] []);
        Expr (Call (Name "no_INC_at_right_endpoint")
                [Name "walker_qubits"; Name "coin_qubit";
                 Name "endpoint_qubit"] []);
        Expr (Call (Attribute (Name "INC") "ctrl")
                [Name "coin_qubit"; walker_at 0; walker_at 1;
                 walker_at 2; walker_at 3] []);
        Expr (Call (Name "reset_coin_and_endpoint")
                [Name "coin_qubit"; Name "endpoint_qubit"] []);
        Expr (Call (Name "no_DEC_at_left_endpoint")
                [Name "walker_qubits"; Name "coin_qubit";
                 Name "endpoint_qubit"] []);
        Expr (Call (Name "x") [Name "coin_qubit"] []);
        Expr (Call (Attribute (Name "DEC") "ctrl")
                [Name "coin_qubit"; walker_at 0; walker_at 1;
                 walker_at 2; walker_at 3] []);
        Expr (Call (Name "x") [Name "coin_qubit"] []);
        Expr (Call (Name "reset_coin_and_endpoint")
                [Name "coin_qubit"; Name "endpoint_qubit"] []);
        Expr (Call (Name "mz") [Name "walker_qubits"] []) ];
    Assign (Name "result")
      (Call (cudaq_ "sample") [Name "DTQW_one_step"; Name "num_qubits"]
         [("shots_count", Num 1000)]);
    Expr (Call (Name "print") [Name "result"] []);
    Expr (Call (Name "plot_results") [Name "result"; Name "num_qubits"] []) ].

Definition notebook : list (list stmt) :=
  [licence_cell; exercise1_cell; exercise2_cell; exercise3_cell].

(** What the framework and Python provide before any cell runs: the
    modules, the gates a kernel may name, and the builtins used. *)
Definition framework : gmap string value :=
  list_to_map
    ((λ id, (id, VExt id)) <$>
       ["cudaq"; "np"; "x"; "h"; "mz"; "range"; "int"; "print"]).

(** Fuel that is enough for the cells of this notebook. *)
Definition enough : nat := 64.

(** One cell: its statements at module level.  The result is the new
    globals, or the index of the statement that raised and the name it
    could not find. *)
Inductive outcome :=
  | Done (g : gmap string value)
  | Raised (statement : nat) (id : string) (g : gmap string value)
  | Unfinished.

Fixpoint run_stmts (fuel k : nat) (g : gmap string value) (ss : list stmt)
    : outcome :=
  match ss with
  | [] => Done g
  | st :: ss' =>
      match exec fuel g None st with
      | Ok (g1, _, _) => run_stmts fuel (S k) g1 ss'
      | NameError id => Raised k id g
      | OutOfFuel => Unfinished
      end
  end.

Definition run_cell (fuel : nat) (g : gmap string value) (cell : list stmt)
    : outcome :=
  run_stmts fuel 0 g cell.

(** The cells in order, stopping at the first that raises:
    the index of that cell comes with its outcome. *)
Fixpoint run_cells (fuel k : nat) (g : gmap string value)
    (cells : list (list stmt)) : nat * outcome :=
  match cells with
  | [] => (k, Done g)
  | cell :: cells' =>
      match run_cell fuel g cell with
      | Done g1 => run_cells fuel (S k) g1 cells'
      | o => (k, o)
      end
  end.

(** The globals an outcome leaves, and where and on which name it
    raised, if it did. *)
Definition globals (o : outcome) : gmap string value :=
  match o with
  | Done g | Raised _ _ g => g
  | Unfinished => ∅
  end.

Definition raised (o : outcome) : option (nat * string) :=
  match o with
  | Raised k id _ => Some (k, id)
  | _ => None
  end.





End Notebook.

(** ** The order of operations the walk step is said to have *)

(** The preparation of the walker and of the coin. *)
Definition state_preparation : list instr :=
  [Op "x" [] [2]; Op "h" [] [3]; Op "h" [] [coin]].

(** Coin operation, right guard, controlled INC, reset, left guard,
    controlled DEC (between two X on the coin), reset, measurement. *)
Definition walk_step : list instr :=
  [Op "h" [] [coin];
   Call "no_INC_at_right_endpoint" (walker ++ [coin; endpoint]);
   Op "INC" [coin] walker;
   Call "reset_coin_and_endpoint" [coin; endpoint];
   Call "no_DEC_at_left_endpoint" (walker ++ [coin; endpoint]);
   Op "x" [] [coin]; Op "DEC" [coin] walker; Op "x" [] [coin];
   Call "reset_coin_and_endpoint" [coin; endpoint];
   Mz walker].

(** ** Parts of a built circuit *)

(** What a circuit does after its first call of the kernel [name]. *)
Fixpoint after_call (name : string) (c : list instr) : list instr :=
  match c with
  | [] => []
  | Call f _ :: c' => if decide (f = name) then c' else after_call name c'
  | _ :: c' => after_call name c'
  end.

(** The gates at the head of a circuit, up to its first kernel call or
    measurement. *)
Fixpoint leading_gates (c : list instr) : list instr :=
  match c with
  | Op name cs ts :: c' => Op name cs ts :: leading_gates c'
  | _ => []
  end.

(** The left shift S- of a walk step: the gates between the call of
    [no_DEC_at_left_endpoint] and the next kernel call. *)
Definition shift_left (c : list instr) : list instr :=
  leading_gates (after_call "no_DEC_at_left_endpoint" c).

(** The gates of a circuit whose operation is registered in [ops]: the
    built-in ones and those of [cudaq.register_operation]. *)
Definition registered {A : Type} (ops : gmap string (list (list A)))
    (i : instr) : bool :=
  match i with
  | Op name _ _ => bool_decide (is_Some (ops !! name))
  | _ => false
  end.

(** ** The walk step for any number of walker qubits *)

(** The circuit [DTQW_one_step n] comes to when it can be built: the coin
    is qubit [n] and the endpoint qubit [n + 1]; the shifts name the first
    four walker qubits whatever [n] is. *)
Definition DTQW_circuit (n : nat) : list instr :=
  [Op "x" [] [2]; Op "h" [] [3]; Op "h" [] [n]; Op "h" [] [n];
   Call "no_INC_at_right_endpoint" (seq 0 n ++ [n; n + 1]);
   Op "INC" [n] [0; 1; 2; 3];
   Call "reset_coin_and_endpoint" [n; n + 1];
   Call "no_DEC_at_left_endpoint" (seq 0 n ++ [n; n + 1]);
   Op "x" [] [n]; Op "DEC" [n] [0; 1; 2; 3]; Op "x" [] [n];
   Call "reset_coin_and_endpoint" [n; n + 1];
   Mz (seq 0 n)].
(** * Proofs *)

(** ** Vectors and 0/1 matrices over a ring *)

Section LinAlgFacts.
Context {A : Type}.
Variables (zero one : A) (add mul sub : A → A → A) (opp : A → A).
Hypothesis Rth : ring_theory zero one add mul sub opp eq.
Add Ring scalars : Rth.

Local Abbreviation dot := (dot zero add mul).
Local Abbreviation basis := (basis zero one).
Local Abbreviation column := (column zero).
Local Abbreviation perm_matrix := (perm_matrix zero one).

Lemma length_basis size i : length (basis size i) = size.
Proof. unfold basis. by rewrite length_insert, length_replicate. Qed.

Lemma basis_0 size : basis (S size) 0 = one :: replicate size zero.
Proof. reflexivity. Qed.

Lemma basis_S size i : basis (S size) (S i) = zero :: basis size i.
Proof. reflexivity. Qed.

Lemma lookup_basis size i j :
  j < size → basis size i !! j = Some (if decide (i = j) then one else zero).
Proof.
  intros Hj. unfold basis. rewrite list_lookup_insert.
  rewrite length_replicate, lookup_replicate_2 by done.
  repeat case_decide; try done; lia.
Qed.

Lemma dot_replicate_zero_r v n : dot v (replicate n zero) = zero.
Proof.
  revert n. induction v as [|a v IH]; intros [|n]; simpl; try done.
  unfold dot in *. simpl. rewrite IH. ring.
Qed.

Lemma dot_replicate_zero_l v n : dot (replicate n zero) v = zero.
Proof.
  revert n. induction v as [|a v IH]; intros [|n]; simpl; try done.
  unfold dot in *. simpl. rewrite IH. ring.
Qed.

(** Against a basis vector a dot product reads one coordinate. *)
Lemma dot_basis_r v i : dot v (basis (length v) i) = default zero (v !! i).
Proof.
  revert i. induction v as [|a v IH]; intros i; [done|].
  destruct i as [|i]; simpl length.
  - rewrite basis_0. unfold dot. simpl.
    fold (dot v (replicate (length v) zero)).
    rewrite dot_replicate_zero_r. ring.
  - rewrite basis_S. unfold dot. simpl.
    fold (dot v (basis (length v) i)). rewrite IH. ring.
Qed.

Lemma dot_basis_l v i : dot (basis (length v) i) v = default zero (v !! i).
Proof.
  revert i. induction v as [|a v IH]; intros i; [done|].
  destruct i as [|i]; simpl length.
  - rewrite basis_0. unfold dot. simpl.
    fold (dot (replicate (length v) zero) v).
    rewrite dot_replicate_zero_l. ring.
  - rewrite basis_S. unfold dot. simpl.
    fold (dot (basis (length v) i) v). rewrite IH. ring.
Qed.

Lemma lookup_perm_matrix size p i :
  i < size → perm_matrix size p !! i = Some (basis size (p i)).
Proof.
  intros Hi. unfold perm_matrix.
  by rewrite list_lookup_fmap, lookup_seq_lt.
Qed.

Lemma length_perm_matrix size p : length (perm_matrix size p) = size.
Proof. unfold perm_matrix. by rewrite length_fmap, length_seq. Qed.

Lemma square_perm_matrix size p : square size (perm_matrix size p).
Proof.
  split; [apply length_perm_matrix|].
  unfold perm_matrix. apply Forall_fmap, Forall_forall.
  intros i _. apply length_basis.
Qed.

(** Multiplying a matrix by [e_j] reads its column [j]. *)
Lemma matvec_basis M size j :
  Forall (λ row, length row = size) M →
  matvec zero add mul M (basis size j) = column M j.
Proof.
  intros HM. unfold matvec, column.
  apply Forall_fmap_ext_1. eapply Forall_impl; [exact HM|].
  intros row <-. apply dot_basis_r.
Qed.

(** The columns of a permutation matrix are basis vectors again. *)
Lemma column_perm_matrix size p q j :
  j < size →
  (∀ i, i < size → p i = j ↔ q j = i) →
  column (perm_matrix size p) j = basis size (q j).
Proof.
  intros Hj Hpq. apply list_eq. intros i.
  unfold column. rewrite list_lookup_fmap.
  destruct (decide (i < size)) as [Hi|Hi].
  - rewrite lookup_perm_matrix by done. simpl.
    rewrite !lookup_basis by done. simpl.
    f_equal. specialize (Hpq i Hi).
    repeat case_decide; try done; tauto.
  - rewrite !lookup_ge_None_2; [done| |].
    + rewrite length_basis. lia.
    + rewrite length_perm_matrix. lia.
Qed.

Lemma transpose_perm_matrix size p q :
  (∀ i j, i < size → j < size → p i = j ↔ q j = i) →
  transpose zero (perm_matrix size p) = perm_matrix size q.
Proof.
  intros Hpq. unfold transpose.
  replace (length (default [] (head (perm_matrix size p)))) with size.
  - unfold perm_matrix at 2. apply Forall_fmap_ext_1, Forall_seq.
    intros j [_ Hj]. apply column_perm_matrix; [lia|].
    intros i Hi. apply Hpq; lia.
  - rewrite head_lookup. destruct size as [|size]; [done|].
    rewrite lookup_perm_matrix by lia. simpl. by rewrite length_basis.
Qed.

Lemma transpose_rows M size :
  square size M → 0 < size →
  transpose zero M = column M <$> seq 0 size.
Proof.
  intros [Hlen Hrows] Hpos. unfold transpose. do 2 f_equal.
  rewrite head_lookup. destruct M as [|row M]; simpl in *; [lia|].
  by inversion Hrows.
Qed.

(** A basis row times a matrix reads a row of the matrix. *)
Lemma basis_row_matmul N size k row :
  square size N → N !! k = Some row →
  dot (basis size k) <$> transpose zero N = row.
Proof.
  intros HN Hk.
  assert (k < size) as Hlt.
  { destruct HN as [<- _]. by eapply lookup_lt_Some. }
  rewrite (transpose_rows N size) by (done || lia).
  destruct HN as [Hlen Hrows].
  assert (length row = size) as Hrow.
  { rewrite Forall_lookup in Hrows. by eapply Hrows. }
  apply list_eq. intros j. rewrite <- list_fmap_compose, list_lookup_fmap.
  destruct (decide (j < size)) as [Hj|Hj].
  - rewrite lookup_seq_lt by done. simpl.
    replace size with (length (column N j)) at 1
      by (unfold column; by rewrite length_fmap).
    rewrite dot_basis_l. unfold column.
    rewrite list_lookup_fmap, Hk. simpl.
    destruct (lookup_lt_is_Some_2 row j) as [a Ha]; [lia|].
    by rewrite Ha.
  - rewrite lookup_seq_ge by lia. simpl.
    symmetry. apply lookup_ge_None_2. lia.
Qed.

Lemma matmul_perm_matrix size p N :
  square size N → (∀ i, i < size → p i < size) →
  matmul zero add mul (perm_matrix size p) N =
  (λ i, default [] (N !! p i)) <$> seq 0 size.
Proof.
  intros HN Hp. unfold matmul, perm_matrix.
  rewrite <- list_fmap_compose. apply Forall_fmap_ext_1, Forall_seq.
  intros i [_ Hi]. simpl.
  destruct (lookup_lt_is_Some_2 N (p i)) as [row Hrow].
  { destruct HN as [-> _]. apply Hp. lia. }
  rewrite Hrow. simpl. by apply basis_row_matmul.
Qed.

Lemma matmul_perm_perm size p q :
  (∀ i, i < size → p i < size) → (∀ i, i < size → q i < size) →
  matmul zero add mul (perm_matrix size q) (perm_matrix size p) =
  perm_matrix size (p ∘ q).
Proof.
  intros Hp Hq. rewrite matmul_perm_matrix
    by (done || apply square_perm_matrix).
  unfold perm_matrix at 2. apply Forall_fmap_ext_1, Forall_seq.
  intros i [_ Hi]. rewrite lookup_perm_matrix by (apply Hq; lia). done.
Qed.

Lemma perm_matrix_ext size p q :
  (∀ i, i < size → p i = q i) → perm_matrix size p = perm_matrix size q.
Proof.
  intros Hpq. unfold perm_matrix. apply Forall_fmap_ext_1, Forall_seq.
  intros i [_ Hi]. simpl. rewrite Hpq by lia. done.
Qed.

(** A permutation matrix sends [e_j] to [e_(q j)], [q] the inverse of
    its row map. *)
Lemma matvec_perm_matrix_basis size p q j :
  j < size →
  (∀ i, i < size → p i = j ↔ q j = i) →
  matvec zero add mul (perm_matrix size p) (basis size j) = basis size (q j).
Proof.
  intros Hj Hpq. rewrite matvec_basis.
  - by apply column_perm_matrix.
  - apply square_perm_matrix.
Qed.
End LinAlgFacts.

(** ** The decrementer is the matrix of the cyclic shift *)

Lemma succ_mod_lt size i : 0 < size → succ_mod size i < size.
Proof. intros. apply Nat.mod_upper_bound. lia. Qed.

Lemma pred_mod_lt size i : 0 < size → pred_mod size i < size.
Proof. intros. apply Nat.mod_upper_bound. lia. Qed.

Lemma succ_mod_cases size i :
  i < size →
  (i + 1 < size ∧ succ_mod size i = i + 1) ∨ (i + 1 = size ∧ succ_mod size i = 0).
Proof.
  intros Hi. unfold succ_mod. destruct (decide (i + 1 < size)) as [Hlt|Hge].
  - left. split; [done|]. by apply Nat.mod_small.
  - right. assert (i + 1 = size) as -> by lia. split; [done|].
    apply Nat.Div0.mod_same.
Qed.

Lemma pred_mod_cases size j :
  j < size →
  (0 < j ∧ pred_mod size j = j - 1) ∨ (j = 0 ∧ pred_mod size j = size - 1).
Proof.
  intros Hj. unfold pred_mod. destruct j as [|j].
  - right. split; [done|]. apply Nat.mod_small. lia.
  - left. split; [lia|].
    replace (S j + (size - 1)) with (j + 1 * size) by lia.
    rewrite Nat.Div0.mod_add, Nat.mod_small by lia. lia.
Qed.

Lemma succ_pred_mod size i j :
  i < size → j < size → succ_mod size i = j ↔ pred_mod size j = i.
Proof.
  intros Hi Hj.
  destruct (succ_mod_cases size i Hi) as [[? ->]|[? ->]],
    (pred_mod_cases size j Hj) as [[? ->]|[? ->]]; lia.
Qed.

Lemma pred_mod_Z size i :
  i < size →
  pred_mod size i = Z.to_nat ((Z.of_nat i - 1) mod Z.of_nat size).
Proof.
  intros Hi. destruct (pred_mod_cases size i Hi) as [[? ->]|[-> ->]].
  - rewrite Z.mod_small by lia. lia.
  - replace (Z.of_nat 0 - 1)%Z with (-1 + 1 * Z.of_nat size - Z.of_nat size)%Z by lia.
    replace (-1 + 1 * Z.of_nat size - Z.of_nat size)%Z
      with ((Z.of_nat size - 1) + (-1) * Z.of_nat size)%Z by lia.
    rewrite Z.mod_add by lia. rewrite Z.mod_small by lia. lia.
Qed.

Lemma succ_mod_Z size i :
  i < size →
  succ_mod size i = Z.to_nat ((Z.of_nat i + 1) mod Z.of_nat size).
Proof.
  intros Hi. unfold succ_mod.
  rewrite <- (Nat2Z.id ((i + 1) mod size)). f_equal.
  rewrite Nat2Z.inj_mod. f_equal. lia.
Qed.

Lemma for_range_app l1 l2 body m :
  for_range (l1 ++ l2) body m =
  match for_range l1 body m with
  | Some m' => for_range l2 body m'
  | None => None
  end.
Proof.
  revert m. induction l1 as [|i l1 IH]; intros m; simpl; [done|].
  destruct (body i m); [apply IH|done].
Qed.

Lemma rows_done_0 size : rows_done size 0 = np_zeros size size.
Proof.
  apply list_eq. intros i. unfold rows_done, np_zeros.
  rewrite list_lookup_fmap.
  destruct (decide (i < size)) as [Hi|Hi].
  - by rewrite lookup_seq_lt, lookup_replicate_2.
  - rewrite lookup_seq_ge by lia. symmetry.
    apply lookup_replicate_None. lia.
Qed.

Lemma rows_done_all size :
  rows_done size size = perm_matrix 0%Z 1%Z size (succ_mod size).
Proof.
  unfold rows_done, perm_matrix. apply Forall_fmap_ext_1, Forall_seq.
  intros i [_ Hi]. simpl. by rewrite decide_True by lia.
Qed.

Lemma rows_done_step size k :
  k < size →
  setitem (rows_done size k) k (succ_mod size k) 1%Z = Some (rows_done size (S k)).
Proof.
  intros Hk. unfold setitem.
  assert (rows_done size k !! k = Some (replicate size 0%Z)) as ->.
  { unfold rows_done. rewrite list_lookup_fmap, lookup_seq_lt by done.
    simpl. by rewrite decide_False by lia. }
  rewrite length_replicate, decide_True by (apply succ_mod_lt; lia).
  f_equal. apply list_eq. intros i.
  rewrite list_lookup_insert. unfold rows_done.
  rewrite length_fmap, length_seq. rewrite !list_lookup_fmap.
  destruct (decide (i < size)) as [Hi|Hi].
  - rewrite lookup_seq_lt by done. simpl.
    repeat case_decide; try done; try lia.
    destruct_and!; by subst.
  - rewrite lookup_seq_ge by lia. simpl. case_decide; [lia|done].
Qed.

Lemma decrementer_loop size k :
  k ≤ size →
  for_range (seq 0 k)
    (λ i dec_matrix, setitem dec_matrix i ((i + 1) mod size) 1%Z)
    (np_zeros size size) = Some (rows_done size k).
Proof.
  induction k as [|k IH]; intros Hk.
  - simpl. by rewrite rows_done_0.
  - rewrite seq_S, for_range_app, IH by lia. simpl.
    change ((k + 1) mod size) with (succ_mod size k).
    rewrite rows_done_step by lia. done.
Qed.

(** For a non-negative argument [decrementer] returns, and what it returns
    is the permutation matrix of [i ↦ (i + 1) mod 2^n]. *)
Lemma decrementer_perm (n : nat) :
  decrementer (Z.of_nat n) = Some (perm_matrix 0%Z 1%Z (2 ^ n) (succ_mod (2 ^ n))).
Proof.
  unfold decrementer. rewrite decide_False by lia. rewrite Nat2Z.id. simpl.
  rewrite decrementer_loop by done. by rewrite rows_done_all.
Qed.

Lemma decrementer_negative (n : Z) : (n < 0)%Z → decrementer n = None.
Proof. intros. unfold decrementer. by rewrite decide_True. Qed.

Lemma pow2_Z (n : nat) : Z.to_nat (2 ^ Z.of_nat n) = 2 ^ n.
Proof.
  rewrite <- (Nat2Z.id (2 ^ n)). f_equal.
  rewrite Nat2Z.inj_pow. done.
Qed.

Lemma pow2_pos (n : nat) : 0 < 2 ^ n.
Proof. induction n; simpl; lia. Qed.

Lemma count_cons `{EqDecision A} (x y : A) (l : list A) :
  count x (y :: l) = (if decide (y = x) then 1 else 0) + count x l.
Proof.
  unfold count. destruct (decide (y = x)) as [Heq|Hne].
  - by rewrite filter_cons_True.
  - by rewrite filter_cons_False.
Qed.

Lemma count_replicate_zero (size : nat) : count 1%Z (replicate size 0%Z) = 0.
Proof.
  induction size as [|size IH]; [done|].
  simpl replicate. rewrite count_cons, IH. done.
Qed.

Lemma count_basis (size k : nat) :
  k < size → count 1%Z (basis 0%Z 1%Z size k) = 1.
Proof.
  revert k. induction size as [|size IH]; intros k Hk; [lia|].
  destruct k as [|k].
  - change (basis 0%Z 1%Z (S size) 0) with (1%Z :: replicate size 0%Z).
    rewrite count_cons, count_replicate_zero. done.
  - change (basis 0%Z 1%Z (S size) (S k)) with (0%Z :: basis 0%Z 1%Z size k).
    rewrite count_cons, IH by lia. done.
Qed.

Lemma entries_basis (size k : nat) :
  Forall (λ v, v = 0 ∨ v = 1)%Z (basis 0%Z 1%Z size k).
Proof.
  unfold basis. apply Forall_insert; [|by right].
  apply Forall_replicate. by left.
Qed.

(** C1. For every [n >= 0], [decrementer n] returns a square matrix of size
    [2^n] whose entries are 0 or 1, with exactly one 1 in every row and in
    every column, and which sends the basis vector [e_i] to
    [e_((i - 1) mod 2^n)]. *)
Theorem decrementer_cyclic_permutation (n : Z) :
  (0 ≤ n)%Z →
  ∃ M : matrix,
    decrementer n = Some M ∧
    let size := Z.to_nat (2 ^ n) in
    square size M ∧
    Forall (Forall (λ v, v = 0 ∨ v = 1)%Z) M ∧
    Forall (λ row, count 1%Z row = 1) M ∧
    (∀ j, j < size → count 1%Z (column 0%Z M j) = 1) ∧
    (∀ i, i < size →
       matvec 0%Z Z.add Z.mul M (basis 0%Z 1%Z size i) =
       basis 0%Z 1%Z size (Z.to_nat ((Z.of_nat i - 1) mod 2 ^ n))).
Proof.
  intros Hn. rewrite <- (Z2Nat.id n Hn). generalize (Z.to_nat n). clear n Hn.
  intros n. eexists. split; [apply decrementer_perm|].
  rewrite pow2_Z. simpl. pose proof (pow2_pos n) as Hpos.
  split; [apply square_perm_matrix|].
  split; [|split; [|split]].
  - unfold perm_matrix. apply Forall_fmap, Forall_seq.
    intros i _. apply entries_basis.
  - unfold perm_matrix. apply Forall_fmap, Forall_seq.
    intros i [_ Hi]. apply count_basis, succ_mod_lt. done.
  - intros j Hj.
    rewrite (column_perm_matrix _ _ _ _ (pred_mod (2 ^ n))) by
      (done || (intros; by apply succ_pred_mod)).
    apply count_basis, pred_mod_lt. done.
  - intros i Hi.
    rewrite (matvec_perm_matrix_basis _ _ _ _ _ _ Zth _ _ (pred_mod (2 ^ n))) by
      (done || (intros; by apply succ_pred_mod)).
    f_equal. rewrite pred_mod_Z by done. by rewrite Nat2Z.inj_pow.
Qed.

Lemma decrementer_cyclic_permutation_witness :
  ∃ M : matrix,
    decrementer 2 = Some M ∧
    let size := Z.to_nat (2 ^ 2) in
    square size M ∧
    Forall (Forall (λ v, v = 0 ∨ v = 1)%Z) M ∧
    Forall (λ row, count 1%Z row = 1) M ∧
    (∀ j, j < size → count 1%Z (column 0%Z M j) = 1) ∧
    (∀ i, i < size →
       matvec 0%Z Z.add Z.mul M (basis 0%Z 1%Z size i) =
       basis 0%Z 1%Z size (Z.to_nat ((Z.of_nat i - 1) mod 2 ^ 2))).
Proof. apply (decrementer_cyclic_permutation 2). lia. Defined.

(** C10. For every [n >= 0] the transpose of [decrementer n] is its
    inverse, on either side, and is the incrementer: it sends [e_i] to
    [e_((i + 1) mod 2^n)]. *)
Theorem decrementer_transpose_inverse (n : Z) :
  (0 ≤ n)%Z →
  ∃ M : matrix,
    decrementer n = Some M ∧
    let size := Z.to_nat (2 ^ n) in
    matmul 0%Z Z.add Z.mul (transpose 0%Z M) M = identity 0%Z 1%Z size ∧
    matmul 0%Z Z.add Z.mul M (transpose 0%Z M) = identity 0%Z 1%Z size ∧
    (∀ i, i < size →
       matvec 0%Z Z.add Z.mul (transpose 0%Z M) (basis 0%Z 1%Z size i) =
       basis 0%Z 1%Z size (Z.to_nat ((Z.of_nat i + 1) mod 2 ^ n))).
Proof.
  intros Hn. rewrite <- (Z2Nat.id n Hn). generalize (Z.to_nat n). clear n Hn.
  intros n. eexists. split; [apply decrementer_perm|].
  rewrite pow2_Z. simpl. pose proof (pow2_pos n) as Hpos.
  rewrite (transpose_perm_matrix _ _ _ _ (pred_mod (2 ^ n))) by
    (intros; by apply succ_pred_mod).
  split; [|split].
  - rewrite (matmul_perm_perm _ _ _ _ _ _ Zth) by
      (intros; by (apply succ_mod_lt || apply pred_mod_lt)).
    apply perm_matrix_ext. intros i Hi. simpl.
    apply succ_pred_mod; [by apply pred_mod_lt|done|done].
  - rewrite (matmul_perm_perm _ _ _ _ _ _ Zth) by
      (intros; by (apply succ_mod_lt || apply pred_mod_lt)).
    apply perm_matrix_ext. intros i Hi. simpl.
    apply succ_pred_mod; [done|by apply succ_mod_lt|done].
  - intros i Hi.
    rewrite (matvec_perm_matrix_basis _ _ _ _ _ _ Zth _ _ (succ_mod (2 ^ n))) by
      (done || (intros; symmetry; by apply succ_pred_mod)).
    f_equal. rewrite succ_mod_Z by done. by rewrite Nat2Z.inj_pow.
Qed.

Lemma decrementer_transpose_inverse_witness :
  ∃ M : matrix,
    decrementer 3 = Some M ∧
    let size := Z.to_nat (2 ^ 3) in
    matmul 0%Z Z.add Z.mul (transpose 0%Z M) M = identity 0%Z 1%Z size ∧
    matmul 0%Z Z.add Z.mul M (transpose 0%Z M) = identity 0%Z 1%Z size ∧
    (∀ i, i < size →
       matvec 0%Z Z.add Z.mul (transpose 0%Z M) (basis 0%Z 1%Z size i) =
       basis 0%Z 1%Z size (Z.to_nat ((Z.of_nat i + 1) mod 2 ^ 3))).
Proof. apply (decrementer_transpose_inverse 3). lia. Defined.

(** ** Histograms of shots *)

Lemma total_count_record_shot (hist : gmap string nat) (key : string) :
  total_count (record_shot hist key) = S (total_count hist).
Proof.
  unfold total_count, record_shot.
  destruct (hist !! key) as [c|] eqn:Hkey; simpl.
  - rewrite <- insert_delete_eq.
    rewrite map_fold_insert_L; [|intros; lia|apply lookup_delete_eq].
    rewrite (map_fold_delete_L _ _ key c hist); [lia|intros; lia|done].
  - rewrite map_fold_insert_L; [done|intros; lia|done].
Qed.

Lemma total_count_shots (keys : list string) (hist : gmap string nat) :
  total_count (foldl record_shot hist keys) = total_count hist + length keys.
Proof.
  revert hist. induction keys as [|key keys IH]; intros hist; simpl; [lia|].
  rewrite IH, total_count_record_shot. lia.
Qed.

Lemma keys_of_shots (P : string → Prop) (keys : list string)
    (hist : gmap string nat) :
  Forall P keys → map_Forall (λ key _, P key) hist →
  map_Forall (λ key _, P key) (foldl record_shot hist keys).
Proof.
  intros Hkeys. revert hist.
  induction Hkeys as [|key keys Hkey _ IH]; intros hist Hhist; simpl; [done|].
  apply IH. by apply map_Forall_insert_2.
Qed.

Lemma bitstring_is_bitstring n qs i : is_bitstring (length qs) (bitstring n qs i).
Proof.
  induction qs as [|q qs [IHlen IHchars]]; [by split|].
  split; simpl.
  - by rewrite IHlen.
  - constructor; [|done]. destruct (qbit n q i); [by right|by left].
Qed.

Lemma shots_replicate (key : string) (n : nat) (hist : gmap string nat) :
  foldl record_shot hist (replicate (S n) key) =
  <[key := S n + default 0 (hist !! key)]> hist.
Proof.
  revert hist. induction n as [|n IH]; intros hist; [done|].
  change (foldl record_shot hist (replicate (S (S n)) key))
    with (foldl record_shot (record_shot hist key) (replicate (S n) key)).
  rewrite IH. unfold record_shot.
  rewrite lookup_insert_eq, insert_insert_eq. simpl. f_equal. lia.
Qed.

Lemma most_probable_singleton (key : string) (c : nat) :
  most_probable {[key := c]} = Some key.
Proof. unfold most_probable. by rewrite map_fold_singleton. Qed.

(** The circuit of the walk step on four walker qubits. *)
Lemma build_DTQW_one_step :
  build (DTQW_one_step 4) =
  Some (Builder 6
    [Op "x" [] [2]; Op "h" [] [3]; Op "h" [] [4]; Op "h" [] [4];
     Call "no_INC_at_right_endpoint" [0; 1; 2; 3; 4; 5];
     Op "INC" [4] [0; 1; 2; 3];
     Call "reset_coin_and_endpoint" [4; 5];
     Call "no_DEC_at_left_endpoint" [0; 1; 2; 3; 4; 5];
     Op "x" [] [4]; Op "DEC" [4] [0; 1; 2; 3]; Op "x" [] [4];
     Call "reset_coin_and_endpoint" [4; 5]; Mz [0; 1; 2; 3]]).
Proof. by vm_compute. Qed.

Lemma build_check_decrementer_kernel :
  build check_decrementer_kernel =
  Some (Builder 4 [Op "x" [] [3]; Op "DEC" [] [0; 1; 2; 3]]).
Proof. by vm_compute. Qed.

(** C6. Sampling [DTQW_one_step] with any number of shots gives a
    histogram whose keys are strings of four bits, one per walker qubit,
    and whose counts add up to the number of shots. *)
Theorem sample_DTQW_one_step_histogram (shots : list nat) :
  ∃ b hist,
    build (DTQW_one_step 4) = Some b ∧
    measured b = walker ∧
    sample (DTQW_one_step 4) shots = Some hist ∧
    total_count hist = length shots ∧
    ∀ key c, hist !! key = Some c → is_bitstring 4 key.
Proof.
  unfold sample. rewrite build_DTQW_one_step.
  eexists _, _. split; [reflexivity|]. split; [reflexivity|].
  split; [reflexivity|].
  change (measured _) with [0; 1; 2; 3]. simpl nqubits. split.
  - rewrite total_count_shots, length_fmap. done.
  - apply map_Forall_lookup, keys_of_shots; [|apply map_Forall_empty].
    apply Forall_fmap, Forall_forall. intros i _.
    apply (bitstring_is_bitstring 6 [0; 1; 2; 3]).
Qed.

(** ** More fuel does not change a result *)

Module FuelFacts.
Import Notebook.

Lemma definite_bind {T U} (m : result T) (f : T → result U) :
  definite (m ≫= f) → definite m.
Proof. by destruct m. Qed.

Section Mono.
Variables (eval eval' : gmap string value → option (gmap string value) →
             expr → result (value * gmap string value)).
Variables (call call' : gmap string value → value → list value →
             result (value * gmap string value)).
Variables (exec exec' : gmap string value → option (gmap string value) →
             stmt → result (gmap string value *
                            option (gmap string value) * option value)).
Hypothesis Heval : ∀ g l e, definite (eval g l e) → eval' g l e = eval g l e.
Hypothesis Hcall : ∀ g fv avs,
  definite (call g fv avs) → call' g fv avs = call g fv avs.
Hypothesis Hexec : ∀ g l st,
  definite (exec g l st) → exec' g l st = exec g l st.

Lemma eval_list_mono l es g :
  definite (eval_list (λ g0 e0, eval g0 l e0) g es) →
  eval_list (λ g0 e0, eval' g0 l e0) g es =
  eval_list (λ g0 e0, eval g0 l e0) g es.
Proof.
  revert g. induction es as [|e es IH]; intros g Hdef; [done|].
  simpl in *. pose proof (definite_bind _ _ Hdef) as He.
  rewrite (Heval _ _ _ He). destruct (eval g l e) as [[v g1]| |]; try done.
  simpl in *. pose proof (definite_bind _ _ Hdef) as Hes.
  by rewrite (IH _ Hes).
Qed.

Lemma exec_block_mono ss g l :
  definite (exec_block exec g l ss) →
  exec_block exec' g l ss = exec_block exec g l ss.
Proof.
  revert g l. induction ss as [|st ss IH]; intros g l Hdef; [done|].
  simpl in *. pose proof (definite_bind _ _ Hdef) as Hst.
  rewrite (Hexec _ _ _ Hst).
  destruct (exec g l st) as [[[g1 l1] [r|]]| |]; try done.
  simpl in *. by apply IH.
Qed.

Lemma decorate_mono ds init :
  definite (decorate call ds init) →
  decorate call' ds init = decorate call ds init.
Proof.
  unfold decorate. induction ds as [|d ds IH]; intros Hdef; [done|].
  simpl in *. pose proof (definite_bind _ _ Hdef) as Hds.
  rewrite (IH Hds).
  destruct (foldr _ init ds) as [[v g0]| |]; try done.
  simpl in *. by apply Hcall.
Qed.

Ltac step :=
  match goal with
  | H : definite (eval ?g ?l ?e ≫= _) |- _ =>
      rewrite (Heval g l e (definite_bind _ _ H));
      destruct (eval g l e) as [[? ?]| |]; try done; simpl in H |- *
  | H : definite (eval_list (λ g0 e0, eval g0 ?l e0) ?g ?es ≫= _) |- _ =>
      rewrite (eval_list_mono l es g (definite_bind _ _ H));
      destruct (eval_list (λ g0 e0, eval g0 l e0) g es) as [[? ?]| |];
      try done; simpl in H |- *
  | H : definite (decorate call ?ds ?init ≫= _) |- _ =>
      rewrite (decorate_mono ds init (definite_bind _ _ H));
      destruct (decorate call ds init) as [[? ?]| |];
      try done; simpl in H |- *
  | H : definite (exec_block exec ?g ?l ?ss ≫= _) |- _ =>
      rewrite (exec_block_mono ss g l (definite_bind _ _ H));
      destruct (exec_block exec g l ss) as [[[? ?] ?]| |];
      try done; simpl in H |- *
  end.

Lemma eval_step_mono g l e :
  definite (eval_step eval call g l e) →
  eval_step eval' call' g l e = eval_step eval call g l e.
Proof.
  intros Hdef. destruct e; simpl in Hdef |- *; try done;
    repeat step; try done.
  by apply Hcall.
Qed.

Lemma call_step_mono g fv avs :
  definite (call_step exec g fv avs) →
  call_step exec' g fv avs = call_step exec g fv avs.
Proof.
  intros Hdef. destruct fv; simpl in Hdef |- *; try done.
  - repeat step; try done.
  - repeat case_decide; try done.
    destruct avs as [|[[] ? ?| | | |] ?]; try done.
    repeat step; try done.
Qed.

Lemma exec_step_mono g l st :
  definite (exec_step eval call exec g l st) →
  exec_step eval' call' exec' g l st = exec_step eval call exec g l st.
Proof.
  intros Hdef. destruct st as [? ? ? ?|target ?|?|? ? ?|?];
    simpl in Hdef |- *.
  - repeat step; try done.
  - destruct target; repeat step; try done.
  - repeat step; try done.
  - repeat step. destruct (bind_name _ l _ VObj) as [g2 l2].
    by apply exec_block_mono.
  - repeat step; try done.
Qed.
End Mono.

Lemma fuel_S n :
  (∀ g l e, definite (eval n g l e) → eval (S n) g l e = eval n g l e) ∧
  (∀ g fv avs, definite (call n g fv avs) →
     call (S n) g fv avs = call n g fv avs) ∧
  (∀ g l st, definite (exec n g l st) → exec (S n) g l st = exec n g l st).
Proof.
  induction n as [|n (IHe & IHc & IHx)]; [by repeat split|].
  split; [|split].
  - intros g l e. by apply eval_step_mono.
  - intros g fv avs. by apply call_step_mono.
  - intros g l st. by apply exec_step_mono.
Qed.

(** Once a statement has run to a result, it has the same result with
    any larger fuel. *)
Lemma exec_fuel_mono n m g l st :
  n ≤ m → definite (exec n g l st) → exec m g l st = exec n g l st.
Proof.
  induction 1 as [|m Hle IH]; intros Hdef; [done|].
  rewrite <- (IH Hdef). apply fuel_S. by rewrite (IH Hdef).
Qed.

Lemma run_stmts_mono n m k g ss :
  n ≤ m → run_stmts n k g ss ≠ Unfinished →
  run_stmts m k g ss = run_stmts n k g ss.
Proof.
  intros Hle. revert k g. induction ss as [|st ss IH]; intros k g Hdef; [done|].
  simpl in *.
  assert (definite (exec n g None st)) as Hst.
  { intros Hout. by rewrite Hout in Hdef. }
  rewrite (exec_fuel_mono n m _ _ _ Hle Hst).
  destruct (exec n g None st) as [[[g1 ?] ?]| |]; try done. by apply IH.
Qed.

Lemma run_cell_mono n m g cell :
  n ≤ m → run_cell n g cell ≠ Unfinished →
  run_cell m g cell = run_cell n g cell.
Proof. apply run_stmts_mono. Qed.

Lemma run_cells_mono n m k g cells :
  n ≤ m → (run_cells n k g cells).2 ≠ Unfinished →
  run_cells m k g cells = run_cells n k g cells.
Proof.
  intros Hle. revert k g.
  induction cells as [|cell cells IH]; intros k g Hdef; [done|].
  simpl in *.
  assert (run_cell n g cell ≠ Unfinished) as Hcell.
  { intros Hout. by rewrite Hout in Hdef. }
  rewrite (run_cell_mono n m _ _ Hle Hcell).
  destruct (run_cell n g cell); try done. by apply IH.
Qed.

End FuelFacts.

(** ** The order of the walk step *)

(** C5. The circuit of [DTQW_one_step] is the state preparation followed
    by the operations of one step in the order [walk_step] lists them:
    coin operation, right guard, controlled INC, reset, left guard,
    controlled DEC, reset; the measurement of the walker comes last. *)
Theorem DTQW_one_step_order :
  ∃ b,
    build (DTQW_one_step 4) = Some b ∧
    code b = state_preparation ++ walk_step ∧
    last (code b) = Some (Mz walker) ∧
    [Op "h" [] [coin];
     Call "no_INC_at_right_endpoint" (walker ++ [coin; endpoint]);
     Op "INC" [coin] walker;
     Call "reset_coin_and_endpoint" [coin; endpoint];
     Call "no_DEC_at_left_endpoint" (walker ++ [coin; endpoint]);
     Op "DEC" [coin] walker;
     Call "reset_coin_and_endpoint" [coin; endpoint];
     Mz walker] `sublist_of` drop 3 (code b).
Proof.
  eexists. split; [apply build_DTQW_one_step|].
  split; [done|]. split; [done|]. simpl.
  repeat (apply sublist_skip || apply sublist_cons || apply sublist_nil).
Qed.

(** ** Running the cells *)

Module NotebookFacts.
Import Notebook FuelFacts.

(** C8. Run from the top with the framework's names bound, the notebook
    stops in the Exercise 2 cell, at its second statement, the call of
    [cudaq.register_operation]: the name [num_qubits] is not bound.
    Nothing before binds it, the first statement of the Exercise 3 cell
    would bind it to 4, and [DEC], [check_decrementer_kernel] and
    [result] are left unbound. *)
Theorem exercise2_raises_in_order (fuel : nat) :
  enough ≤ fuel →
  let stop := run_cells fuel 0 framework notebook in
  stop.1 = 2 ∧
  raised stop.2 = Some (1, "num_qubits") ∧
  notebook !! 2 = Some exercise2_cell ∧
  exercise2_cell !! 1 =
    Some (Expr (Call (cudaq_ "register_operation")
            [Str "DEC"; Call (Name "decrementer") [Name "num_qubits"] []] [])) ∧
  globals stop.2 !! "num_qubits" = None ∧
  globals stop.2 !! "DEC" = None ∧
  globals stop.2 !! "check_decrementer_kernel" = None ∧
  globals stop.2 !! "result" = None ∧
  notebook !! 3 = Some exercise3_cell ∧
  exercise3_cell !! 0 = Some (Assign (Name "num_qubits") (Num 4)) ∧
  globals (run_cell fuel (globals stop.2) [Assign (Name "num_qubits") (Num 4)])
    !! "num_qubits" = Some (VNum 4).
Proof.
  intros Hfuel.
  rewrite (run_cells_mono enough fuel) by (done || by vm_compute).
  intros stop.
  rewrite (run_cell_mono enough fuel) by (done || by vm_compute).
  repeat split; by vm_compute.
Qed.

Lemma exercise2_raises_in_order_witness :
  let stop := run_cells enough 0 framework notebook in
  stop.1 = 2 ∧
  raised stop.2 = Some (1, "num_qubits") ∧
  notebook !! 2 = Some exercise2_cell ∧
  exercise2_cell !! 1 =
    Some (Expr (Call (cudaq_ "register_operation")
            [Str "DEC"; Call (Name "decrementer") [Name "num_qubits"] []] [])) ∧
  globals stop.2 !! "num_qubits" = None ∧
  globals stop.2 !! "DEC" = None ∧
  globals stop.2 !! "check_decrementer_kernel" = None ∧
  globals stop.2 !! "result" = None ∧
  notebook !! 3 = Some exercise3_cell ∧
  exercise3_cell !! 0 = Some (Assign (Name "num_qubits") (Num 4)) ∧
  globals (run_cell enough (globals stop.2) [Assign (Name "num_qubits") (Num 4)])
    !! "num_qubits" = Some (VNum 4).
Proof. apply (exercise2_raises_in_order enough). reflexivity. Defined.


End NotebookFacts.

(** ** Gates on the six-qubit register *)

Lemma Qsqrt2_laws :
  amp_laws Qsqrt2.zero Qsqrt2.one Qsqrt2.add Qsqrt2.mul Qsqrt2.sub
    Qsqrt2.opp Qsqrt2.conj Qsqrt2.s.
Proof.
  split; try done.
  split; intros; repeat match goal with a : Qsqrt2 |- _ => destruct a end;
    unfold Qsqrt2.add, Qsqrt2.mul, Qsqrt2.sub, Qsqrt2.opp, Qsqrt2.zero,
      Qsqrt2.one; simpl; f_equal; ring.
Qed.

Section QuantumFacts.
Context {A : Type}.
Variables (zero one : A) (add mul sub : A → A → A) (opp conj : A → A) (s : A).
Hypothesis laws : amp_laws zero one add mul sub opp conj s.
Add Ring amplitudes : (amp_ring _ _ _ _ _ _ _ _ laws).
Variable absent : string → list nat → list nat → list A → list A.

Local Abbreviation norm2 := (norm2 zero add mul conj).
Local Abbreviation X_matrix := (X_matrix zero one).
Local Abbreviation H_matrix := (H_matrix opp s).
Local Abbreviation DEC_matrix := (DEC_matrix zero one).
Local Abbreviation ops16 := (ops16 zero one opp s).
Local Abbreviation apply_gate := (apply_gate zero add mul).
Local Abbreviation reindex := (reindex zero).
Local Abbreviation run_instr := (run_instr zero add mul absent).
Local Abbreviation run_circuit := (run_circuit zero add mul absent).
Local Abbreviation step_ok := (step_ok zero one add mul opp conj s absent).

Lemma of_matrix_perm size p :
  of_matrix zero one add mul opp (perm_matrix 0%Z 1%Z size p) =
  perm_matrix zero one size p.
Proof.
  unfold of_matrix, perm_matrix. rewrite <- list_fmap_compose.
  apply Forall_fmap_ext_1, Forall_seq. intros i _. simpl.
  unfold basis. by rewrite list_fmap_insert, fmap_replicate.
Qed.

Lemma notebook_ops_eq : notebook_ops zero one add mul opp s = Some ops16.
Proof.
  unfold notebook_ops. change num_qubits with (Z.of_nat 4).
  rewrite decrementer_perm. unfold register_operation.
  by rewrite of_matrix_perm.
Qed.

Lemma length_apply_gate n U cs ts st :
  length (apply_gate n U cs ts st) = 2 ^ n.
Proof. unfold apply_gate. by rewrite length_fmap, length_seq. Qed.

Lemma length_reindex n f st : length (reindex n f st) = 2 ^ n.
Proof. unfold reindex. by rewrite length_fmap, length_seq. Qed.

Ltac destruct_state st H :=
  do 64 (destruct st as [|? st]; [discriminate H|]);
  destruct st; [|discriminate H]; clear H.

Ltac list_ring :=
  repeat (apply (f_equal2 cons); [ring|]); reflexivity.

Ltac push_conj :=
  rewrite ?(conj_add _ _ _ _ _ _ _ _ laws), ?(conj_mul _ _ _ _ _ _ _ _ laws),
    ?(conj_opp _ _ _ _ _ _ _ _ laws), ?(conj_s _ _ _ _ _ _ _ _ laws),
    ?(conj_zero _ _ _ _ _ _ _ _ laws), ?(conj_one _ _ _ _ _ _ _ _ laws).

(** A Hadamard gate keeps the total probability: the amplitudes of each
    pair of basis states that differ in the target bit go to
    [s (a + b)] and [s (a - b)], and [2 s s = 1]. *)
Ltac hadamard_norm st H :=
  destruct_state st H; vm_compute; push_conj;
  match goal with
  | |- ?L = ?R => transitivity (mul (mul (add one one) (mul s s)) R)
  end; [ring | rewrite (half _ _ _ _ _ _ _ _ laws); ring].

Lemma H_qubit3_norm st :
  length st = 64 → norm2 (apply_gate 6 H_matrix [] [3] st) = norm2 st.
Proof. intros Hlen. hadamard_norm st Hlen. Qed.

Lemma H_coin_norm st :
  length st = 64 → norm2 (apply_gate 6 H_matrix [] [coin] st) = norm2 st.
Proof. intros Hlen. hadamard_norm st Hlen. Qed.

(** The gates with 0/1 matrices move amplitudes around. *)
Lemma X_reindex q st :
  q < 6 → length st = 64 →
  apply_gate 6 X_matrix [] [q] st =
  reindex 6 (λ i, setbit 6 q (negb (qbit 6 q i)) i) st.
Proof.
  intros Hq Hlen. destruct_state st Hlen.
  do 6 (destruct q as [|q]; [vm_compute; list_ring|]). lia.
Qed.

Lemma DEC_ctrl_reindex st :
  length st = 64 →
  apply_gate 6 DEC_matrix [coin] walker st =
  reindex 6 (λ i, if qbit 6 coin i
                  then put 6 walker (succ_mod 16 (sel 6 walker i)) i
                  else i) st.
Proof. intros Hlen. destruct_state st Hlen. vm_compute. list_ring. Qed.

Lemma X_norm q :
  q < 6 →
  ∀ st, length st = 64 → norm2 (apply_gate 6 X_matrix [] [q] st) = norm2 st.
Proof.
  intros Hq st Hlen. rewrite X_reindex by done. destruct_state st Hlen.
  do 6 (destruct q as [|q]; [vm_compute; ring|]). lia.
Qed.

Lemma DEC_ctrl_norm st :
  length st = 64 →
  norm2 (apply_gate 6 DEC_matrix [coin] walker st) = norm2 st.
Proof.
  intros Hlen. rewrite DEC_ctrl_reindex by done. destruct_state st Hlen.
  vm_compute. ring.
Qed.

(** *** Running the circuit *)

Lemma run_instr_gate name U cs ts st :
  ops16 !! name = Some U → gate_fits 6 U cs ts = true →
  run_instr ops16 6 (Op name cs ts) st = Some (apply_gate 6 U cs ts st).
Proof. intros HU Hfits. unfold run_instr. by rewrite HU, Hfits. Qed.

Lemma step_ok_gate name U cs ts :
  ops16 !! name = Some U → gate_fits 6 U cs ts = true →
  (∀ st, length st = 64 → norm2 (apply_gate 6 U cs ts st) = norm2 st) →
  step_ok (Op name cs ts).
Proof.
  intros HU Hfits Hnorm st Hlen. eexists. split; [by apply run_instr_gate|].
  split; [apply length_apply_gate|by apply Hnorm].
Qed.

(** *** Operators that move amplitudes, on basis states *)

Lemma forall_lt_check (P : nat → Prop) `{!∀ i, Decision (P i)} (N : nat) :
  forallb (λ i, bool_decide (P i)) (seq 0 N) = true → ∀ i, i < N → P i.
Proof.
  intros Hall i Hi. rewrite forallb_forall in Hall.
  eapply bool_decide_eq_true_1, Hall. apply in_seq. lia.
Qed.

Lemma reindex_basis n f g j :
  j < 2 ^ n →
  (∀ i, i < 2 ^ n → f i < 2 ^ n ∧ g (f i) = i) →
  g j < 2 ^ n ∧ f (g j) = j →
  reindex n f (basis zero one (2 ^ n) j) = basis zero one (2 ^ n) (g j).
Proof.
  intros Hj Hf [Hg Hfg]. apply list_eq. intros i. unfold reindex.
  rewrite list_lookup_fmap.
  destruct (decide (i < 2 ^ n)) as [Hi|Hi].
  - destruct (Hf i Hi) as [Hfi Hgf].
    rewrite lookup_seq_lt by done. simpl.
    rewrite !lookup_basis by done. simpl. f_equal.
    repeat case_decide; try done; congruence.
  - rewrite lookup_seq_ge by lia. simpl. symmetry.
    apply lookup_ge_None_2. rewrite length_basis. lia.
Qed.

(** The three gates of the left shift move the amplitude of [inc_index i]
    to [i]. *)
Lemma shift_left_reindex st :
  length st = 64 →
  run_circuit ops16 6
    [Op "x" [] [coin]; Op "DEC" [coin] walker; Op "x" [] [coin]] st =
  Some (reindex 6 inc_index st).
Proof.
  intros Hlen. destruct_state st Hlen. vm_compute. f_equal. list_ring.
Qed.

Lemma controlled_on_zero_reindex st :
  length st = 64 →
  controlled_on_zero zero add mul 6 DEC_matrix coin walker st =
  reindex 6 inc_index st.
Proof. intros Hlen. destruct_state st Hlen. vm_compute. list_ring. Qed.

Lemma inc_dec_index i :
  i < 64 →
  (inc_index i < 64 ∧ dec_index (inc_index i) = i) ∧
  (dec_index i < 64 ∧ inc_index (dec_index i) = i) ∧
  qbit 6 coin (dec_index i) = qbit 6 coin i.
Proof.
  revert i.
  apply (forall_lt_check (λ i,
    (inc_index i < 64 ∧ dec_index (inc_index i) = i) ∧
    (dec_index i < 64 ∧ inc_index (dec_index i) = i) ∧
    qbit 6 coin (dec_index i) = qbit 6 coin i)).
  by vm_compute.
Qed.

Lemma shift_left_DTQW_one_step b :
  build (DTQW_one_step 4) = Some b →
  nqubits b = 6 ∧
  shift_left (code b) =
  [Op "x" [] [coin]; Op "DEC" [coin] walker; Op "x" [] [coin]].
Proof. rewrite build_DTQW_one_step. by intros [= <-]. Qed.

(** C9. The gates that [DTQW_one_step] applies between its left guard
    and the following reset are [x(coin); DEC.ctrl(coin, walker);
    x(coin)], and on the six qubits of the kernel they are
    [decrementer 4] controlled on the coin being 0: the matrix acts on
    the walker where the coin bit is 0 and nothing changes where it
    is 1.  A basis state goes to the basis state [dec_index], whose coin
    bit is the same. *)
Theorem DEC_between_X_is_zero_controlled (st : list A) :
  length st = 2 ^ 6 →
  ∃ b ops M,
    build (DTQW_one_step 4) = Some b ∧ nqubits b = 6 ∧
    shift_left (code b) =
      [Op "x" [] [coin]; Op "DEC" [coin] walker; Op "x" [] [coin]] ∧
    notebook_ops zero one add mul opp s = Some ops ∧
    decrementer 4 = Some M ∧
    run_circuit ops (nqubits b) (shift_left (code b)) st =
    Some (controlled_on_zero zero add mul 6
            (of_matrix zero one add mul opp M) coin walker st) ∧
    ∀ i, i < 2 ^ 6 →
      qbit 6 coin (dec_index i) = qbit 6 coin i ∧
      run_circuit ops (nqubits b) (shift_left (code b))
        (basis zero one (2 ^ 6) i) =
      Some (basis zero one (2 ^ 6) (dec_index i)).
Proof.
  intros Hlen.
  destruct (build (DTQW_one_step 4)) as [b|] eqn:Hb;
    [|by rewrite build_DTQW_one_step in Hb].
  destruct (shift_left_DTQW_one_step b Hb) as [Hn Hgates].
  exists b, ops16. eexists.
  split; [done|]. split; [done|]. split; [done|].
  split; [apply notebook_ops_eq|].
  split; [apply (decrementer_perm 4)|].
  rewrite Hn, Hgates, of_matrix_perm. split.
  - rewrite shift_left_reindex, controlled_on_zero_reindex by done. done.
  - intros i Hi. split; [by apply inc_dec_index|].
    rewrite shift_left_reindex by apply length_basis.
    f_equal. apply reindex_basis; [done| |by apply inc_dec_index].
    intros k Hk. by apply inc_dec_index.
Qed.

(** *** The two small kernels *)

Ltac list_ring16 :=
  repeat (apply (f_equal2 cons); [ring|]); reflexivity.

(** C4. [initial_position] applies X to qubit 2 and then H to qubit 3
    and nothing else; from [|0000>] it leaves the amplitude [s] on
    [|0010>] and on [|0011>] and zero on every other basis state. *)
Theorem initial_position_superposition :
  ∃ b,
    build (qubits ← qvector 4; initial_position qubits) = Some b ∧
    code b = [Op "x" [] [2]; Op "h" [] [3]] ∧
    simulate zero one add mul opp s absent
      (qubits ← qvector 4; initial_position qubits) =
    Some ((λ i, if decide (i = 2 ∨ i = 3) then s else zero) <$> seq 0 16).
Proof.
  eexists. split; [by vm_compute|]. split; [done|].
  vm_compute. f_equal. list_ring16.
Qed.

Lemma simulate_check_decrementer_kernel :
  simulate zero one add mul opp s absent check_decrementer_kernel =
  Some (basis zero one 16 0).
Proof. vm_compute. f_equal. list_ring16. Qed.

Lemma possible_basis size j i :
  possible zero (basis zero one size j) i → i = j.
Proof.
  intros (a & Hi & Ha).
  assert (i < size) as Hlt.
  { apply lookup_lt_Some in Hi. by rewrite length_basis in Hi. }
  rewrite lookup_basis in Hi by done.
  case_decide; [done|]. by injection Hi as <-.
Qed.

(** C2. [decrementer 4] sends [e_1] to [e_0]; so
    [check_decrementer_kernel] ends in the basis state [|0000>], every
    shot that can occur records [0000], and [most_probable] is [0000]. *)
Theorem check_decrementer_yields_0000 (shots : list nat) :
  0 < length shots →
  Forall (possible zero (basis zero one 16 0)) shots →
  ∃ M hist,
    decrementer 4 = Some M ∧
    matvec 0%Z Z.add Z.mul M (basis 0%Z 1%Z 16 1) = basis 0%Z 1%Z 16 0 ∧
    simulate zero one add mul opp s absent check_decrementer_kernel =
      Some (basis zero one 16 0) ∧
    sample check_decrementer_kernel shots = Some hist ∧
    hist = {["0000" := length shots]} ∧
    most_probable hist = Some "0000".
Proof.
  intros Hpos Hshots.
  assert (shots = replicate (length shots) 0) as Hzero.
  { apply list_eq_same_length with (length shots);
      [by rewrite length_replicate|done|].
    intros i k1 k2 Hi Hk1 Hk2.
    rewrite lookup_replicate in Hk2. destruct Hk2 as [-> _].
    rewrite Forall_lookup in Hshots.
    eapply possible_basis, Hshots, Hk1. }
  eexists _, _. split; [apply (decrementer_perm 4)|].
  split.
  { apply (matvec_perm_matrix_basis _ _ _ _ _ _ Zth 16 _ (pred_mod 16) 1);
      [lia|]. intros. apply succ_pred_mod; lia. }
  split; [apply simulate_check_decrementer_kernel|].
  unfold sample. rewrite build_check_decrementer_kernel.
  split; [reflexivity|].
  change (measured _) with [0; 1; 2; 3]. simpl nqubits.
  rewrite Hzero, fmap_replicate, length_replicate.
  change (bitstring 4 [0; 1; 2; 3] 0) with "0000".
  destruct (length shots) as [|n]; [lia|].
  rewrite shots_replicate, lookup_empty. simpl.
  rewrite Nat.add_0_r, insert_empty.
  split; [done|apply most_probable_singleton].
Qed.
End QuantumFacts.

(** ** The theorems at the amplitudes of Q(sqrt 2) *)

Lemma possible_shots_0000 :
  Forall (possible Qsqrt2.zero (basis Qsqrt2.zero Qsqrt2.one 16 0))
    (replicate 1000 0).
Proof. apply Forall_replicate. eexists. by split. Qed.

Lemma DEC_between_X_is_zero_controlled_witness :
  let st := basis Qsqrt2.zero Qsqrt2.one 64 8 in
  ∃ b ops M,
    build (DTQW_one_step 4) = Some b ∧ nqubits b = 6 ∧
    shift_left (code b) =
      [Op "x" [] [coin]; Op "DEC" [coin] walker; Op "x" [] [coin]] ∧
    notebook_ops Qsqrt2.zero Qsqrt2.one Qsqrt2.add Qsqrt2.mul Qsqrt2.opp
      Qsqrt2.s = Some ops ∧
    decrementer 4 = Some M ∧
    run_circuit Qsqrt2.zero Qsqrt2.add Qsqrt2.mul Qsqrt2.skip ops (nqubits b)
      (shift_left (code b)) st =
    Some (controlled_on_zero Qsqrt2.zero Qsqrt2.add Qsqrt2.mul 6
            (of_matrix Qsqrt2.zero Qsqrt2.one Qsqrt2.add Qsqrt2.mul
               Qsqrt2.opp M) coin walker st) ∧
    ∀ i, i < 2 ^ 6 →
      qbit 6 coin (dec_index i) = qbit 6 coin i ∧
      run_circuit Qsqrt2.zero Qsqrt2.add Qsqrt2.mul Qsqrt2.skip ops (nqubits b)
        (shift_left (code b)) (basis Qsqrt2.zero Qsqrt2.one (2 ^ 6) i) =
      Some (basis Qsqrt2.zero Qsqrt2.one (2 ^ 6) (dec_index i)).
Proof.
  apply (DEC_between_X_is_zero_controlled _ _ _ _ _ _ _ _ Qsqrt2_laws
           Qsqrt2.skip (basis Qsqrt2.zero Qsqrt2.one 64 8)).
  reflexivity.
Defined.

Lemma initial_position_superposition_witness :
  ∃ b,
    build (qubits ← qvector 4; initial_position qubits) = Some b ∧
    code b = [Op "x" [] [2]; Op "h" [] [3]] ∧
    simulate Qsqrt2.zero Qsqrt2.one Qsqrt2.add Qsqrt2.mul Qsqrt2.opp Qsqrt2.s
      Qsqrt2.skip (qubits ← qvector 4; initial_position qubits) =
    Some ((λ i, if decide (i = 2 ∨ i = 3) then Qsqrt2.s else Qsqrt2.zero)
            <$> seq 0 16).
Proof.
  exact (initial_position_superposition _ _ _ _ _ _ _ _ Qsqrt2_laws Qsqrt2.skip).
Defined.

Lemma check_decrementer_yields_0000_witness :
  let shots := replicate 1000 0 in
  ∃ M hist,
    decrementer 4 = Some M ∧
    matvec 0%Z Z.add Z.mul M (basis 0%Z 1%Z 16 1) = basis 0%Z 1%Z 16 0 ∧
    simulate Qsqrt2.zero Qsqrt2.one Qsqrt2.add Qsqrt2.mul Qsqrt2.opp Qsqrt2.s
      Qsqrt2.skip check_decrementer_kernel =
      Some (basis Qsqrt2.zero Qsqrt2.one 16 0) ∧
    sample check_decrementer_kernel shots = Some hist ∧
    hist = {["0000" := length shots]} ∧
    most_probable hist = Some "0000".
Proof.
  apply (check_decrementer_yields_0000 _ _ _ _ _ _ _ _ Qsqrt2_laws Qsqrt2.skip
           (replicate 1000 0)).
  - rewrite length_replicate. lia.
  - apply possible_shots_0000.
Defined.

(** * Further properties *)

(** ** The decrementer on arbitrary vectors *)

Section PermutationAction.
Context {A : Type}.
Variables (zero one : A) (add mul sub : A → A → A) (opp : A → A).
Hypothesis Rth : ring_theory zero one add mul sub opp eq.
Add Ring scalars' : Rth.

(** A permutation matrix moves the entries of a vector. *)
Lemma matvec_perm_matrix size p (v : list A) :
  length v = size →
  matvec zero add mul (perm_matrix zero one size p) v =
  (λ i, default zero (v !! p i)) <$> seq 0 size.
Proof.
  intros <-. unfold matvec, perm_matrix. rewrite <- list_fmap_compose.
  apply Forall_fmap_ext_1, Forall_seq. intros i _. simpl.
  by apply (dot_basis_l _ _ _ _ _ _ Rth).
Qed.

Lemma sum_permutation (l1 l2 : list A) :
  l1 ≡ₚ l2 → foldr add zero l1 = foldr add zero l2.
Proof.
  induction 1 as [|a l1 l2 _ IH|a b l|l1 l2 l3 _ IH1 _ IH2]; simpl.
  - done.
  - by rewrite IH.
  - ring.
  - by rewrite IH1.
Qed.
End PermutationAction.

Lemma rotate_nat_add_succ_mod size i :
  i < size → rotate_nat_add 1 i size = succ_mod size i.
Proof.
  intros Hi. unfold rotate_nat_add. rewrite (succ_mod_Z size i Hi).
  do 2 f_equal. lia.
Qed.

Lemma shift_is_rotate {A} (zero : A) (v : list A) :
  (λ i, default zero (v !! succ_mod (length v) i)) <$> seq 0 (length v) =
  rotate 1 v.
Proof.
  apply list_eq. intros i. rewrite list_lookup_fmap.
  destruct (decide (i < length v)) as [Hi|Hi].
  - rewrite lookup_seq_lt, lookup_rotate_r by done. simpl.
    rewrite rotate_nat_add_succ_mod by done.
    destruct (lookup_lt_is_Some_2 v (succ_mod (length v) i)) as [a Ha];
      [apply succ_mod_lt; lia|].
    by rewrite Ha.
  - rewrite lookup_seq_ge by lia. symmetry. apply lookup_ge_None_2.
    rewrite length_rotate. lia.
Qed.

Lemma rotate_permutation {A} (k : nat) (v : list A) : rotate k v ≡ₚ v.
Proof.
  unfold rotate. rewrite Permutation_app_comm. by rewrite take_drop.
Qed.

Lemma rotate_rotate {A} (j k : nat) (v : list A) :
  rotate j (rotate k v) = rotate (j + k) v.
Proof.
  apply list_eq. intros i.
  destruct (decide (i < length v)) as [Hi|Hi].
  - assert (0 < length v) as Hpos by lia.
    rewrite !lookup_rotate_r by (rewrite ?length_rotate; try done;
      apply rotate_nat_add_lt; lia).
    rewrite length_rotate. f_equal. unfold rotate_nat_add.
    rewrite Z2Nat.id by (apply Z.mod_pos_bound; lia).
    rewrite Zplus_mod_idemp_r. do 2 f_equal. lia.
  - rewrite !lookup_ge_None_2; [done|by rewrite ?length_rotate; lia..].
Qed.

Lemma rotate_length {A} (v : list A) : rotate (length v) v = v.
Proof.
  unfold rotate. destruct v as [|a v]; [done|].
  rewrite Nat.Div0.mod_same. by rewrite drop_0, app_nil_r.
Qed.

Lemma zip_with_rotate {A B C} (f : A → B → C) k (u : list A) (v : list B) :
  length u = length v →
  zip_with f (rotate k u) (rotate k v) = rotate k (zip_with f u v).
Proof.
  intros Hlen. unfold rotate.
  rewrite length_zip_with, <- Hlen, Nat.min_id.
  rewrite zip_with_app by (rewrite !length_drop; lia).
  by rewrite zip_with_drop, zip_with_take.
Qed.

(** X1. For [n >= 0], multiplying a vector of length [2^n] by
    [decrementer n] rotates it by one place: entry [i] of the product is
    entry [(i + 1) mod 2^n] of the vector. *)
Theorem decrementer_rotates (n : Z) (v : list Z) :
  (0 ≤ n)%Z → length v = Z.to_nat (2 ^ n) →
  ∃ M : matrix,
    decrementer n = Some M ∧
    matvec 0%Z Z.add Z.mul M v = rotate 1 v ∧
    ∀ i, i < length v →
      matvec 0%Z Z.add Z.mul M v !! i = v !! ((i + 1) mod length v).
Proof.
  intros Hn. rewrite <- (Z2Nat.id n Hn). generalize (Z.to_nat n). clear n Hn.
  intros n. rewrite pow2_Z. intros Hlen.
  eexists. split; [apply decrementer_perm|].
  rewrite (matvec_perm_matrix _ _ _ _ _ _ Zth) by done.
  rewrite <- Hlen, shift_is_rotate. split; [done|].
  intros i Hi. rewrite lookup_rotate_r by done.
  by rewrite rotate_nat_add_succ_mod.
Qed.

Lemma decrementer_rotates_witness :
  ∃ M : matrix,
    decrementer 2 = Some M ∧
    matvec 0%Z Z.add Z.mul M [5; 7; 11; 13]%Z = rotate 1 [5; 7; 11; 13]%Z ∧
    ∀ i, i < length [5; 7; 11; 13]%Z →
      matvec 0%Z Z.add Z.mul M [5; 7; 11; 13]%Z !! i =
      [5; 7; 11; 13]%Z !! ((i + 1) mod length [5; 7; 11; 13]%Z).
Proof. apply (decrementer_rotates 2 [5; 7; 11; 13]%Z); [lia|reflexivity]. Defined.

(** X2. For [n >= 0], [decrementer n] only permutes the entries of a
    vector and keeps every inner product: [(M u) . (M v) = u . v] for all
    vectors of length [2^n]. *)
Theorem decrementer_keeps_inner_products (n : Z) (u v : list Z) :
  (0 ≤ n)%Z → length u = Z.to_nat (2 ^ n) → length v = Z.to_nat (2 ^ n) →
  ∃ M : matrix,
    decrementer n = Some M ∧
    matvec 0%Z Z.add Z.mul M v ≡ₚ v ∧
    dot 0%Z Z.add Z.mul (matvec 0%Z Z.add Z.mul M u)
      (matvec 0%Z Z.add Z.mul M v) = dot 0%Z Z.add Z.mul u v.
Proof.
  intros Hn. rewrite <- (Z2Nat.id n Hn). generalize (Z.to_nat n). clear n Hn.
  intros n. rewrite pow2_Z. intros Hu Hv.
  eexists. split; [apply decrementer_perm|].
  rewrite !(matvec_perm_matrix _ _ _ _ _ _ Zth) by done.
  assert (∀ w : list Z, length w = 2 ^ n →
            (λ i, default 0%Z (w !! succ_mod (2 ^ n) i)) <$> seq 0 (2 ^ n) =
            rotate 1 w) as Hshift.
  { intros w <-. apply shift_is_rotate. }
  rewrite !Hshift by done. split; [apply rotate_permutation|].
  unfold dot. rewrite zip_with_rotate by congruence.
  apply (sum_permutation _ _ _ _ _ _ Zth), rotate_permutation.
Qed.

Lemma decrementer_keeps_inner_products_witness :
  ∃ M : matrix,
    decrementer 1 = Some M ∧
    matvec 0%Z Z.add Z.mul M [3; 4]%Z ≡ₚ [3; 4]%Z ∧
    dot 0%Z Z.add Z.mul (matvec 0%Z Z.add Z.mul M [1; 2]%Z)
      (matvec 0%Z Z.add Z.mul M [3; 4]%Z) = dot 0%Z Z.add Z.mul [1; 2]%Z [3; 4]%Z.
Proof.
  apply (decrementer_keeps_inner_products 1 [1; 2]%Z [3; 4]%Z);
    [lia|reflexivity|reflexivity].
Defined.

(** X3. For [n >= 0], multiplying [k] times by [decrementer n] rotates a
    vector of length [2^n] by [k] places, so [2^n] multiplications give
    the vector back: the decrementer has order dividing [2^n]. *)
Theorem decrementer_powers (n : Z) (k : nat) (v : list Z) :
  (0 ≤ n)%Z → length v = Z.to_nat (2 ^ n) →
  ∃ M : matrix,
    decrementer n = Some M ∧
    Nat.iter k (matvec 0%Z Z.add Z.mul M) v = rotate k v ∧
    Nat.iter (Z.to_nat (2 ^ n)) (matvec 0%Z Z.add Z.mul M) v = v.
Proof.
  intros Hn. rewrite <- (Z2Nat.id n Hn). generalize (Z.to_nat n). clear n Hn.
  intros n. rewrite pow2_Z. intros Hlen.
  eexists. split; [apply decrementer_perm|].
  assert (∀ j, Nat.iter j
            (matvec 0%Z Z.add Z.mul (perm_matrix 0%Z 1%Z (2 ^ n) (succ_mod (2 ^ n)))) v
          = rotate j v) as Hiter.
  { induction j as [|j IH]; simpl.
    - unfold rotate. by rewrite Nat.Div0.mod_0_l, drop_0, app_nil_r.
    - rewrite IH, (matvec_perm_matrix _ _ _ _ _ _ Zth)
        by (by rewrite length_rotate).
      rewrite <- Hlen, <- (length_rotate v j), shift_is_rotate.
      by rewrite rotate_rotate. }
  split; [apply Hiter|]. rewrite Hiter, <- Hlen. apply rotate_length.
Qed.

Lemma decrementer_powers_witness :
  ∃ M : matrix,
    decrementer 2 = Some M ∧
    Nat.iter 3 (matvec 0%Z Z.add Z.mul M) [5; 7; 11; 13]%Z =
      rotate 3 [5; 7; 11; 13]%Z ∧
    Nat.iter (Z.to_nat (2 ^ 2)) (matvec 0%Z Z.add Z.mul M) [5; 7; 11; 13]%Z =
      [5; 7; 11; 13]%Z.
Proof. apply (decrementer_powers 2 3 [5; 7; 11; 13]%Z); [lia|reflexivity]. Defined.

(** ** The gates of the kernels on every state *)

Section GateFacts.
Context {A : Type}.
Variables (zero one : A) (add mul sub : A → A → A) (opp conj : A → A) (s : A).
Hypothesis laws : amp_laws zero one add mul sub opp conj s.
Add Ring amplitudes' : (amp_ring _ _ _ _ _ _ _ _ laws).
Variable absent : string → list nat → list nat → list A → list A.

Local Abbreviation ops16 := (ops16 zero one opp s).
Local Abbreviation run_circuit := (run_circuit zero add mul absent).

Ltac peel st H := destruct st as [|? st]; [discriminate H|].
Ltac close st H := destruct st; [|discriminate H]; clear H.

Ltac list_ring :=
  repeat (apply (f_equal2 cons); [ring|]); reflexivity.

(** Equal up to the factor [2 s s = 1]. *)
Ltac half_ring :=
  match goal with
  | |- ?L = ?R => transitivity (mul (mul (add one one) (mul s s)) R)
  end; [ring | rewrite (half _ _ _ _ _ _ _ _ laws); ring].

Ltac list_half_ring :=
  repeat (apply (f_equal2 cons); [half_ring|]); reflexivity.

Lemma run_circuit_app ops n c1 c2 st :
  run_circuit ops n (c1 ++ c2) st =
  match run_circuit ops n c1 st with
  | Some st' => run_circuit ops n c2 st'
  | None => None
  end.
Proof.
  revert st. induction c1 as [|i c1 IH]; intros st; simpl; [done|].
  destruct (run_instr _ _ _ _ _ _ _ _) as [st'|]; [apply IH|done].
Qed.

(** X5. On a register of four qubits the registered gate
    [DEC(q0, q1, q2, q3)] rotates the amplitudes by one place: it is the
    multiplication by [decrementer 4], and a basis state [|x>] goes to
    [|(x - 1) mod 16>]. *)
Theorem DEC_gate_decrements (st : list A) :
  length st = 2 ^ 4 →
  ∃ ops,
    notebook_ops zero one add mul opp s = Some ops ∧
    run_circuit ops 4 [Op "DEC" [] [0; 1; 2; 3]] st = Some (rotate 1 st) ∧
    ∀ x, x < 2 ^ 4 →
      run_circuit ops 4 [Op "DEC" [] [0; 1; 2; 3]] (basis zero one (2 ^ 4) x) =
      Some (basis zero one (2 ^ 4) (Z.to_nat ((Z.of_nat x - 1) mod 16))).
Proof.
  intros Hlen. exists ops16. split; [apply notebook_ops_eq|].
  assert (∀ st' : list A, length st' = 16 →
            run_circuit ops16 4 [Op "DEC" [] [0; 1; 2; 3]] st' =
            Some (rotate 1 st')) as Hrot.
  { intros st' Hlen'. do 16 peel st' Hlen'. close st' Hlen'.
    vm_compute. f_equal. list_ring. }
  split; [by apply Hrot|].
  intros x Hx. rewrite Hrot by apply length_basis. f_equal.
  do 16 (destruct x as [|x]; [by vm_compute|]). simpl in Hx. lia.
Qed.

Lemma build_initial_position_six :
  build (walker_qubits ← qvector 4; qubit ;; qubit ;;
         initial_position walker_qubits) =
  Some (Builder 6 [Op "x" [] [2]; Op "h" [] [3]]).
Proof. by vm_compute. Qed.

Lemma hadamards_cancel (st : list A) :
  length st = 64 →
  run_circuit ops16 6 [Op "h" [] [coin]; Op "h" [] [coin]] st = Some st.
Proof.
  intros Hlen. do 64 peel st Hlen. close st Hlen.
  vm_compute. f_equal. list_half_ring.
Qed.

(** X6. Up to its first kernel call, the right guard, [DTQW_one_step]
    applies the gates of [initial_position] and then two Hadamard gates
    to the coin (the initial coin state, then the coin operation).  The
    two cancel on every state, so up to the right guard the kernel has
    done to the register what [initial_position] alone does on the same
    qubits. *)
Theorem coin_hadamards_cancel (st : list A) :
  length st = 2 ^ 6 →
  ∃ b b0 ops,
    build (DTQW_one_step 4) = Some b ∧
    build (walker_qubits ← qvector 4; qubit ;; qubit ;;
           initial_position walker_qubits) = Some b0 ∧
    nqubits b = 6 ∧ nqubits b0 = 6 ∧
    leading_gates (code b) =
      code b0 ++ [Op "h" [] [coin]; Op "h" [] [coin]] ∧
    notebook_ops zero one add mul opp s = Some ops ∧
    run_circuit ops (nqubits b)
      (drop (length (code b0)) (leading_gates (code b))) st = Some st ∧
    run_circuit ops (nqubits b) (leading_gates (code b)) st =
    run_circuit ops (nqubits b0) (code b0) st ∧
    is_Some (run_circuit ops (nqubits b0) (code b0) st).
Proof.
  intros Hlen. eexists _, _, ops16.
  split; [apply build_DTQW_one_step|].
  split; [apply build_initial_position_six|].
  do 3 (split; [reflexivity|]).
  split; [apply notebook_ops_eq|].
  cbn [code nqubits].
  change (leading_gates _)
    with ([Op "x" [] [2]; Op "h" [] [3]] ++
          [Op "h" [] [coin]; Op "h" [] [coin]]).
  rewrite drop_app_length.
  split; [by apply hadamards_cancel|].
  rewrite run_circuit_app.
  assert (∃ st1, run_circuit ops16 6 [Op "x" [] [2]; Op "h" [] [3]] st =
                 Some st1 ∧ length st1 = 64) as (st1 & -> & Hlen1).
  { change (run_circuit ops16 6 [Op "x" [] [2]; Op "h" [] [3]] st) with
      (match run_instr zero add mul absent ops16 6 (Op "x" [] [2]) st with
       | Some st' =>
           match run_instr zero add mul absent ops16 6 (Op "h" [] [3]) st' with
           | Some st'' => Some st''
           | None => None
           end
       | None => None
       end).
    rewrite (run_instr_gate _ _ _ _ _ _ _ _ (X_matrix zero one)) by done.
    rewrite (run_instr_gate _ _ _ _ _ _ _ _ (H_matrix opp s)) by done.
    eexists. split; [done|]. apply length_apply_gate. }
  split; [by apply hadamards_cancel|done].
Qed.

(** X12. Of the twelve operations that [DTQW_one_step] applies before
    the measurement, seven are registered gates: X on qubit 2 and H on
    qubit 3, two H on the coin, and X, controlled DEC, X.  Each of them
    runs on every state of the six qubits and keeps the sum of the
    squared magnitudes of the amplitudes, whatever the operations that
    the notebook does not define do. *)
Theorem DTQW_one_step_gates_keep_probability :
  ∃ b ops,
    build (DTQW_one_step 4) = Some b ∧ nqubits b = 6 ∧
    length (code b) = 13 ∧
    notebook_ops zero one add mul opp s = Some ops ∧
    filter (λ i, registered ops i = true) (code b) =
      [Op "x" [] [2]; Op "h" [] [3]; Op "h" [] [coin]; Op "h" [] [coin];
       Op "x" [] [coin]; Op "DEC" [coin] walker; Op "x" [] [coin]] ∧
    Forall (λ i, ∀ st, length st = 2 ^ 6 →
              ∃ st', run_instr zero add mul absent ops (nqubits b) i st =
                       Some st' ∧
                     length st' = 2 ^ 6 ∧
                     norm2 zero add mul conj st' = norm2 zero add mul conj st)
      (filter (λ i, registered ops i = true) (code b)).
Proof.
  eexists _, ops16.
  split; [apply build_DTQW_one_step|]. do 2 (split; [reflexivity|]).
  split; [apply notebook_ops_eq|].
  cbn [code nqubits].
  assert (filter (λ i, registered ops16 i = true)
            [Op "x" [] [2]; Op "h" [] [3]; Op "h" [] [4]; Op "h" [] [4];
             Call "no_INC_at_right_endpoint" [0; 1; 2; 3; 4; 5];
             Op "INC" [4] [0; 1; 2; 3];
             Call "reset_coin_and_endpoint" [4; 5];
             Call "no_DEC_at_left_endpoint" [0; 1; 2; 3; 4; 5];
             Op "x" [] [4]; Op "DEC" [4] [0; 1; 2; 3]; Op "x" [] [4];
             Call "reset_coin_and_endpoint" [4; 5]; Mz [0; 1; 2; 3]] =
          [Op "x" [] [2]; Op "h" [] [3]; Op "h" [] [coin]; Op "h" [] [coin];
           Op "x" [] [coin]; Op "DEC" [coin] walker; Op "x" [] [coin]])
    as -> by by vm_compute.
  split; [done|].
  repeat apply Forall_cons_2; try apply Forall_nil_2.
  - eapply step_ok_gate with (U := X_matrix zero one);
      [done..|]. eapply X_norm; [exact laws|unfold coin; lia].
  - eapply step_ok_gate with (U := H_matrix opp s);
      [done..|]. eapply H_qubit3_norm, laws.
  - eapply step_ok_gate with (U := H_matrix opp s);
      [done..|]. eapply H_coin_norm, laws.
  - eapply step_ok_gate with (U := H_matrix opp s);
      [done..|]. eapply H_coin_norm, laws.
  - eapply step_ok_gate with (U := X_matrix zero one);
      [done..|]. eapply X_norm; [exact laws|unfold coin; lia].
  - eapply step_ok_gate with (U := DEC_matrix zero one);
      [done..|]. eapply DEC_ctrl_norm, laws.
  - eapply step_ok_gate with (U := X_matrix zero one);
      [done..|]. eapply X_norm; [exact laws|unfold coin; lia].
Qed.
End GateFacts.

Lemma DEC_gate_decrements_witness :
  let st := basis Qsqrt2.zero Qsqrt2.one 16 5 in
  ∃ ops,
    notebook_ops Qsqrt2.zero Qsqrt2.one Qsqrt2.add Qsqrt2.mul Qsqrt2.opp
      Qsqrt2.s = Some ops ∧
    run_circuit Qsqrt2.zero Qsqrt2.add Qsqrt2.mul Qsqrt2.skip ops 4
      [Op "DEC" [] [0; 1; 2; 3]] st = Some (rotate 1 st) ∧
    ∀ x, x < 2 ^ 4 →
      run_circuit Qsqrt2.zero Qsqrt2.add Qsqrt2.mul Qsqrt2.skip ops 4
        [Op "DEC" [] [0; 1; 2; 3]] (basis Qsqrt2.zero Qsqrt2.one (2 ^ 4) x) =
      Some (basis Qsqrt2.zero Qsqrt2.one (2 ^ 4)
              (Z.to_nat ((Z.of_nat x - 1) mod 16))).
Proof.
  apply (DEC_gate_decrements _ _ _ _ _ _ _ _ Qsqrt2_laws Qsqrt2.skip
           (basis Qsqrt2.zero Qsqrt2.one 16 5)).
  reflexivity.
Defined.

Lemma coin_hadamards_cancel_witness :
  let st := basis Qsqrt2.zero Qsqrt2.one 64 2 in
  ∃ b b0 ops,
    build (DTQW_one_step 4) = Some b ∧
    build (walker_qubits ← qvector 4; qubit ;; qubit ;;
           initial_position walker_qubits) = Some b0 ∧
    nqubits b = 6 ∧ nqubits b0 = 6 ∧
    leading_gates (code b) =
      code b0 ++ [Op "h" [] [coin]; Op "h" [] [coin]] ∧
    notebook_ops Qsqrt2.zero Qsqrt2.one Qsqrt2.add Qsqrt2.mul Qsqrt2.opp
      Qsqrt2.s = Some ops ∧
    run_circuit Qsqrt2.zero Qsqrt2.add Qsqrt2.mul Qsqrt2.skip ops (nqubits b)
      (drop (length (code b0)) (leading_gates (code b))) st = Some st ∧
    run_circuit Qsqrt2.zero Qsqrt2.add Qsqrt2.mul Qsqrt2.skip ops (nqubits b)
      (leading_gates (code b)) st =
    run_circuit Qsqrt2.zero Qsqrt2.add Qsqrt2.mul Qsqrt2.skip ops (nqubits b0)
      (code b0) st ∧
    is_Some (run_circuit Qsqrt2.zero Qsqrt2.add Qsqrt2.mul Qsqrt2.skip ops
               (nqubits b0) (code b0) st).
Proof.
  apply (coin_hadamards_cancel _ _ _ _ _ _ _ _ Qsqrt2_laws Qsqrt2.skip
           (basis Qsqrt2.zero Qsqrt2.one 64 2)).
  reflexivity.
Defined.

Lemma DTQW_one_step_gates_keep_probability_witness :
  ∃ b ops,
    build (DTQW_one_step 4) = Some b ∧ nqubits b = 6 ∧
    length (code b) = 13 ∧
    notebook_ops Qsqrt2.zero Qsqrt2.one Qsqrt2.add Qsqrt2.mul Qsqrt2.opp
      Qsqrt2.s = Some ops ∧
    filter (λ i, registered ops i = true) (code b) =
      [Op "x" [] [2]; Op "h" [] [3]; Op "h" [] [coin]; Op "h" [] [coin];
       Op "x" [] [coin]; Op "DEC" [coin] walker; Op "x" [] [coin]] ∧
    Forall (λ i, ∀ st, length st = 2 ^ 6 →
              ∃ st', run_instr Qsqrt2.zero Qsqrt2.add Qsqrt2.mul Qsqrt2.skip
                       ops (nqubits b) i st = Some st' ∧
                     length st' = 2 ^ 6 ∧
                     norm2 Qsqrt2.zero Qsqrt2.add Qsqrt2.mul Qsqrt2.conj st' =
                     norm2 Qsqrt2.zero Qsqrt2.add Qsqrt2.mul Qsqrt2.conj st)
      (filter (λ i, registered ops i = true) (code b)).
Proof.
  exact (DTQW_one_step_gates_keep_probability _ _ _ _ _ _ _ _ Qsqrt2_laws
           Qsqrt2.skip).
Defined.

(** ** The kernels and the size of their registers *)

(** X7. [initial_position] fails exactly when it is given fewer than four
    qubits ([qubits[3]] is out of range); otherwise it allocates nothing
    and adds to the circuit, after what is there, an X on [qubits[2]] and
    an H on [qubits[3]], whatever the other qubits are. *)
Theorem initial_position_bounds (qubits : list nat) (b : builder) :
  (initial_position qubits b = None ↔ length qubits < 4) ∧
  ∀ q2 q3, qubits !! 2 = Some q2 → qubits !! 3 = Some q3 →
    initial_position qubits b =
    Some (tt, Builder (nqubits b) (code b ++ [Op "x" [] [q2]; Op "h" [] [q3]])).
Proof.
  assert (∀ q2 q3, qubits !! 2 = Some q2 → qubits !! 3 = Some q3 →
    initial_position qubits b =
    Some (tt, Builder (nqubits b) (code b ++ [Op "x" [] [q2]; Op "h" [] [q3]])))
    as Hbuilt.
  { intros q2 q3 H2 H3. unfold initial_position, x, h, gate, mbind, kernel_bind.
    rewrite H2, H3. simpl. unfold emit. simpl. by rewrite <- app_assoc. }
  split; [|exact Hbuilt].
  destruct (decide (length qubits < 4)) as [Hlt|Hge].
  - split; [done|]. intros _.
    destruct qubits as [|q0 [|q1 [|q2 [|q3 qubits]]]]; try done.
    simpl in Hlt. lia.
  - destruct (lookup_lt_is_Some_2 qubits 2) as [q2 H2]; [lia|].
    destruct (lookup_lt_is_Some_2 qubits 3) as [q3 H3]; [lia|].
    rewrite (Hbuilt q2 q3 H2 H3). split; [done|lia].
Qed.

Lemma build_DTQW_one_step_any (n : nat) :
  build (DTQW_one_step n) =
  if decide (n < 4) then None else Some (Builder (n + 2) (DTQW_circuit n)).
Proof.
  case_decide as Hn.
  - do 4 (destruct n as [|n]; [done|]). lia.
  - unfold build, DTQW_one_step, initial_position, x, h, mz, call, gate,
      qvector, qubit, emit, mbind, kernel_bind. simpl.
    rewrite !lookup_seq_lt by lia. simpl.
    unfold DTQW_circuit. by replace (n + 1 + 1) with (n + 2) by lia.
Qed.

Lemma measured_DTQW_circuit (n : nat) :
  0 < n → measured (Builder (n + 2) (DTQW_circuit n)) = seq 0 n.
Proof.
  intros Hn. unfold measured. simpl. rewrite app_nil_r.
  destruct n as [|n]; [lia|done].
Qed.

(** X8. [DTQW_one_step n] cannot be built for [n < 4]: the shifts name
    [walker_qubits[3]].  For [n >= 4] it has [n + 2] qubits and the circuit
    [DTQW_circuit n]: the controlled INC and DEC act on the first four
    walker qubits only, while all [n] walker qubits are measured. *)
Theorem DTQW_one_step_register (n : nat) :
  build (DTQW_one_step n) =
    (if decide (n < 4) then None
     else Some (Builder (n + 2) (DTQW_circuit n))) ∧
  (4 ≤ n → measured (Builder (n + 2) (DTQW_circuit n)) = seq 0 n).
Proof.
  split; [apply build_DTQW_one_step_any|].
  intros Hn. apply measured_DTQW_circuit. lia.
Qed.

(** X9. [check_decrementer_kernel] has no [mz], so sampling it records all
    four qubits: whatever the shots, the keys of the histogram are strings
    of four bits and the counts add up to the number of shots. *)
Theorem sample_check_decrementer_histogram (shots : list nat) :
  ∃ b hist,
    build check_decrementer_kernel = Some b ∧
    measured b = [0; 1; 2; 3] ∧
    sample check_decrementer_kernel shots = Some hist ∧
    total_count hist = length shots ∧
    ∀ key c, hist !! key = Some c → is_bitstring 4 key.
Proof.
  unfold sample. rewrite build_check_decrementer_kernel.
  eexists _, _. split; [reflexivity|]. split; [reflexivity|].
  split; [reflexivity|].
  change (measured _) with [0; 1; 2; 3]. simpl nqubits. split.
  - rewrite total_count_shots, length_fmap. done.
  - apply map_Forall_lookup, keys_of_shots; [|apply map_Forall_empty].
    apply Forall_fmap, Forall_forall. intros i _.
    apply (bitstring_is_bitstring 4 [0; 1; 2; 3]).
Qed.

(** X11. For any [n >= 4] and any shots, sampling [DTQW_one_step n] gives
    a histogram whose keys are strings of [n] bits, one per walker qubit,
    and whose counts add up to the number of shots. *)
Theorem sample_DTQW_one_step_any (n : nat) (shots : list nat) :
  4 ≤ n →
  ∃ hist,
    sample (DTQW_one_step n) shots = Some hist ∧
    total_count hist = length shots ∧
    ∀ key c, hist !! key = Some c → is_bitstring n key.
Proof.
  intros Hn. unfold sample.
  rewrite build_DTQW_one_step_any, decide_False by lia.
  rewrite measured_DTQW_circuit by lia.
  eexists. split; [reflexivity|]. split.
  - rewrite total_count_shots, length_fmap. done.
  - apply map_Forall_lookup, keys_of_shots; [|apply map_Forall_empty].
    apply Forall_fmap, Forall_forall. intros i _.
    rewrite <- (length_seq n 0) at 1. apply bitstring_is_bitstring.
Qed.

Lemma sample_DTQW_one_step_any_witness :
  ∃ hist,
    sample (DTQW_one_step 5) [0; 17; 127] = Some hist ∧
    total_count hist = length [0; 17; 127] ∧
    ∀ key c, hist !! key = Some c → is_bitstring 5 key.
Proof. apply (sample_DTQW_one_step_any 5 [0; 17; 127]). lia. Defined.

(** ** The Exercise 2 cell in any globals *)

Module CellFacts.
Import Notebook FuelFacts.

Lemma run_stmts_cons fuel k g st ss :
  run_stmts fuel k g (st :: ss) =
  match exec fuel g None st with
  | Ok (g1, _, _) => run_stmts fuel (S k) g1 ss
  | NameError id => Raised k id g
  | OutOfFuel => Unfinished
  end.
Proof. reflexivity. Qed.

(** A plain [def] binds its name and reads nothing. *)
Lemma exec_plain_def fuel g name param body :
  exec (S fuel) g None (FunctionDef name [] [(param, None)] body) =
  Ok (<[name := VFun false [param] body]> g, None, None).
Proof. reflexivity. Qed.

Lemma exec_expr fuel g e :
  exec (S fuel) g None (Expr e) =
  '(_, g1) ← eval fuel g None e; Ok (g1, None, None).
Proof. reflexivity. Qed.

(** The registration of DEC reads [cudaq], then [decrementer], then
    [num_qubits]. *)
Lemma eval_registration fuel (g : gmap string value) fv :
  g !! "decrementer" = Some fv → g !! "num_qubits" = None →
  eval (S (S (S (S fuel)))) g None
    (Call (cudaq_ "register_operation")
       [Str "DEC"; Call (Name "decrementer") [Name "num_qubits"] []] []) =
  NameError (match g !! "cudaq" with Some _ => "num_qubits" | None => "cudaq" end).
Proof.
  intros Hdec Hnum. cbn -[lookup].
  destruct (g !! "cudaq") as [v|]; [|done]. cbn -[lookup].
  rewrite Hdec. cbn -[lookup]. by rewrite Hnum.
Qed.

(** X10. Whatever else is bound beforehand, as long as [num_qubits] is
    not and [cudaq] is the framework module or unbound, the Exercise 2
    cell stops at its second statement, the registration of DEC: on
    [num_qubits] when [cudaq] is bound, on [cudaq] otherwise.  By then
    it has bound [decrementer] and nothing else, so DEC is not
    registered and the decrementer check has not run. *)
Theorem exercise2_needs_num_qubits (g : gmap string value) :
  g !! "cudaq" = None ∨ g !! "cudaq" = Some (VExt "cudaq") →
  g !! "num_qubits" = None →
  let o := run_cell enough g exercise2_cell in
  raised o =
    Some (1, match g !! "cudaq" with Some _ => "num_qubits" | None => "cudaq" end) ∧
  is_Some (globals o !! "decrementer") ∧
  ∀ name, name ≠ "decrementer" → globals o !! name = g !! name.
Proof.
  intros _ Hnum o. subst o. unfold run_cell, exercise2_cell, enough.
  rewrite run_stmts_cons, exec_plain_def, run_stmts_cons.
  rewrite exec_expr.
  rewrite (eval_registration 59 _ _ (lookup_insert_eq _ _ _))
    by by rewrite lookup_insert_ne.
  rewrite lookup_insert_ne by done. simpl.
  split; [done|]. split.
  - rewrite lookup_insert_eq. by eexists.
  - intros name Hname. by rewrite lookup_insert_ne.
Qed.

Lemma exercise2_needs_num_qubits_witness :
  let o := run_cell enough framework exercise2_cell in
  raised o =
    Some (1, match framework !! "cudaq" with
             | Some _ => "num_qubits"
             | None => "cudaq"
             end) ∧
  is_Some (globals o !! "decrementer") ∧
  ∀ name, name ≠ "decrementer" → globals o !! name = framework !! name.
Proof.
  apply (exercise2_needs_num_qubits framework); [right|]; reflexivity.
Defined.
End CellFacts.
